(** * The grading engine of the mutation-testing autograder

    A shallow embedding of the grading functions of [main.ts]
    ([extractLocationInformation], [gradeMutationUnit], [validateConfig],
    [gradeStrykerResults]) and the properties the specification states
    about them.

    The repository holds two revisions of [main.ts]:
    - [src/main.ts], which scans the breakpoints with
      [config.breakPoints.reverse()], reversing the stored array in place;
    - the revision that adds [expectedTSIgnore] and [outputGrading], which
      scans [config.breakPoints.concat([]).reverse()], a reversed copy.
    Everything else in the four functions is the same text; the shared
    parts are embedded once, the two [gradeMutationUnit]s in the modules
    [InPlace] and [Copying].

    Modelling choices.
    - A JavaScript [number] that comes from the configuration or the
      report (thresholds, points, line numbers) is an integer, [Z]. Where
      the code can produce a value that is not an integer ([parseInt]
      gives [NaN], [Math.max()] of nothing gives [-Infinity]) the type is
      [number]. Integers are exact: the rounding of doubles beyond 2^53
      and the exponent notation of numbers from 10^21 on are left out.
    - A string is a sequence of 8-bit characters.
    - An array of breakpoints is an object of the heap: a unit holds a
      reference to it, and two units may hold the same one (a YAML anchor
      and alias parse to one array).
    - A thrown exception is the [Throw] result. *)

From Stdlib Require Import ZArith Lia Ascii String DecimalString DecimalPos.
From stdpp Require Import base option list sorting gmap strings.

Local Open Scope Z_scope.

(** ** JavaScript values *)

Inductive number : Type :=
| Num (z : Z)
| NaN
| NegInfinity.

Global Instance number_eq_dec : EqDecision number.
Proof. solve_decision. Defined.

(** [a <= b] on numbers: false as soon as one side is [NaN]. *)
Definition number_leb (a b : number) : bool :=
  match a, b with
  | NaN, _ | _, NaN => false
  | NegInfinity, _ => true
  | Num _, NegInfinity => false
  | Num x, Num y => x <=? y
  end.

(** [a >= b] *)
Definition number_geb (a b : number) : bool := number_leb b a.

(** [Math.max(...xs)] on integers: [-Infinity] when there is no argument. *)
Definition Math_max (xs : list Z) : number :=
  match xs with
  | [] => NegInfinity
  | x :: rest => Num (fold_left Z.max rest x)
  end.

(** [xs[i]]: [undefined], here [None], outside [0 .. length - 1]. *)
Definition index {A} (xs : list A) (i : Z) : option A :=
  if i <? 0 then None else xs !! Z.to_nat i.

(** The decimal text of an integer, as a template literal prints it. *)
Definition ToString (z : Z) : string :=
  NilZero.string_of_int (Z.to_int z).

Inductive error : Type :=
| UnsupportedLocationFormat
    (* Error('No support for column mutators right now.') *)
| InvalidBreakpointOrdering (gradedUnit : string)
    (* Error(`Error in config for gradedUnit ${gradedUnit.name}, ...`) *)
| TypeError.
    (* reading a property of undefined *)

Inductive result (A : Type) : Type :=
| Ok (a : A)
| Throw (e : error).
Arguments Ok {A} a.
Arguments Throw {A} e.

Definition result_bind {A B} (r : result A) (k : A → result B) : result B :=
  match r with
  | Ok a => k a
  | Throw e => Throw e
  end.

(** [xs.map(f)] for an [f] that may throw: the first exception wins. *)
Fixpoint result_map {A B} (f : A → result B) (xs : list A) : result (list B) :=
  match xs with
  | [] => Ok []
  | x :: rest =>
      result_bind (f x) (λ y,
      result_bind (result_map f rest) (λ ys, Ok (y :: ys)))
  end.

(** ** Strings *)

Module Str.

(** [s.split(sep)] for a separator of one character. *)
Fixpoint split (sep : ascii) (s : string) : list string :=
  match s with
  | EmptyString => [EmptyString]
  | String c rest =>
      if Ascii.eqb c sep then EmptyString :: split sep rest
      else match split sep rest with
           | part :: parts => String c part :: parts
           | [] => [String c EmptyString]
           end
  end.

Fixpoint startsWith (s t : string) : bool :=
  match t, s with
  | EmptyString, _ => true
  | String _ _, EmptyString => false
  | String b t', String a s' => Ascii.eqb a b && startsWith s' t'
  end.

(** [s.includes(t)] *)
Fixpoint includes (s t : string) : bool :=
  startsWith s t ||
  match s with
  | EmptyString => false
  | String _ s' => includes s' t
  end.

(** How many times [c] occurs in [s]. *)
Fixpoint occurrences (c : ascii) (s : string) : nat :=
  match s with
  | EmptyString => 0%nat
  | String a rest => ((if Ascii.eqb a c then 1 else 0) + occurrences c rest)%nat
  end.

(** The white space of ASCII: tab, line feed, vertical tab, form feed,
    carriage return and space. *)
Definition isWhiteSpace (c : ascii) : bool :=
  let n := nat_of_ascii c in
  ((9 <=? n) && (n <=? 13) || (n =? 32))%nat.

Fixpoint trimStart (s : string) : string :=
  match s with
  | EmptyString => EmptyString
  | String c rest => if isWhiteSpace c then trimStart rest else s
  end.

(** The value of [c] as a digit in base [radix], if it is one. *)
Definition digit (radix : Z) (c : ascii) : option Z :=
  let n := Z.of_nat (nat_of_ascii c) in
  let v := if (48 <=? n) && (n <=? 57) then Some (n - 48)
           else if (97 <=? n) && (n <=? 122) then Some (n - 87)
           else if (65 <=? n) && (n <=? 90) then Some (n - 55)
           else None in
  match v with
  | Some d => if d <? radix then Some d else None
  | None => None
  end.

(** The longest prefix of digits, read most significant digit first;
    [acc] is [None] until a digit has been read. *)
Fixpoint digits (radix : Z) (s : string) (acc : option Z) : option Z :=
  match s with
  | EmptyString => acc
  | String c rest =>
      match digit radix c with
      | Some d => digits radix rest (Some (default 0 acc * radix + d))
      | None => acc
      end
  end.

(** [parseInt(s)] with no radix: leading white space, a sign, a [0x]
    prefix, then the longest run of digits; [NaN] when there is none. *)
Definition parseInt (s : string) : number :=
  let s := trimStart s in
  let '(sign, s) :=
    match s with
    | String "-" rest => (-1, rest)
    | String "+" rest => (1, rest)
    | _ => (1, s)
    end in
  let '(radix, s) :=
    match s with
    | String "0" (String "x" rest) | String "0" (String "X" rest) => (16, rest)
    | _ => (10, s)
    end in
  match digits radix s None with
  | Some v => Num (sign * v)
  | None => NaN
  end.

(** [parseInt(parts[i])]: an element that is not there is [undefined],
    which [parseInt] reads as the text "undefined", without a digit. *)
Definition parseInt_part (part : option string) : number :=
  match part with
  | Some s => parseInt s
  | None => NaN
  end.

End Str.

(** ** The configuration and the report *)

(** A threshold is a count of mutants and the points are marks: both are
    integers here. The properties below use their order and their
    maximum only, except where a bound is stated. *)
Record BreakPoint : Type := {
  minimumMutantsDetected : Z;
  pointsToAward : Z
}.

Global Instance BreakPoint_eq_dec : EqDecision BreakPoint.
Proof. solve_decision. Defined.

(** A reference to an array of breakpoints. *)
Definition ref : Type := positive.

Record GradedUnit : Type := {
  name : string;
  breakPoints : ref;
  locations : list string
}.

(** The grading functions read [gradedUnits] only; [submissionFiles] (and
    [expectedTSIgnore], [expectedESlintIgnore] in the later revision) are
    used by [run] alone. *)
Record GradingConfig : Type := {
  gradedUnits : list GradedUnit;
  submissionFiles : list (string * string)
}.

Record LocationRange : Type := {
  fileName : string;
  startLine : number;
  endLine : number
}.

(** [mutant.status] and [mutant.location.start.line] *)
Record MutantResult : Type := {
  status : string;
  line : Z
}.

(** [mutationResults.files]: file path to [{mutants}] *)
Record MutationTestResult : Type := {
  files : gmap string (list MutantResult)
}.

(** [test_name] is the field [name] of [TestResult], [grader_output] and
    [grader_score] the fields [output] and [score] of [GraderOutput]. *)
Record TestResult : Type := {
  score : Z;
  max_score : number;
  test_name : string;
  output : string
}.

Inductive visibility : Type :=
| hidden | after_due_date | after_published | visible.

Record GraderOutput : Type := {
  grader_output : option string;
  stdout_visibility : visibility;
  tests : option (list TestResult);
  grader_score : option Z
}.

(** ** The location parser *)

Definition extractLocationInformation (location : string) : result LocationRange :=
  let parts := Str.split ":" location in
  if (2 <? length parts)%nat then Throw UnsupportedLocationFormat
  else
    match parts !! 0%nat, parts !! 1%nat with
    | Some fileName, Some lineSpec =>
        if Str.includes lineSpec "-" then
          let lineParts := Str.split "-" lineSpec in
          Ok {| fileName := fileName;
                startLine := Str.parseInt_part (lineParts !! 0%nat);
                endLine := Str.parseInt_part (lineParts !! 1%nat) |}
        else
          let startLine := Str.parseInt lineSpec in
          Ok {| fileName := fileName; startLine := startLine; endLine := startLine |}
    | _, _ =>
        (* [parts[1]] is undefined when the location has no [:] *)
        Throw TypeError
    end.

(** ** The heap of breakpoint arrays, and computations over it *)

Abbreviation heap := (gmap ref (list BreakPoint)).

(** A computation that reads and writes the heap and may throw; the heap
    survives an exception. *)
Definition M (A : Type) : Type := heap → result A * heap.

Global Instance M_ret : MRet M := λ A a st, (Ok a, st).
Global Instance M_bind : MBind M := λ A B k m st,
  match m st with
  | (Ok a, st') => k a st'
  | (Throw e, st') => (Throw e, st')
  end.

Definition throw {A} (e : error) : M A := λ st, (Throw e, st).

Definition lift {A} (r : result A) : M A := λ st, (r, st).

(** The elements of the array behind [r], as they are now. Every
    reference of a configuration points to an array; a reference that the
    heap does not hold reads as the empty array. *)
Definition readArray (r : ref) : M (list BreakPoint) :=
  λ st, (Ok (st !!! r), st).

(** [a.reverse()]: reverses the array behind [r] where it is stored and
    returns that same array. *)
Definition reverse_in_place (r : ref) : M (list BreakPoint) :=
  λ st, let reversed := reverse (st !!! r) in (Ok reversed, <[r := reversed]> st).

(** [a.concat([]).reverse()]: a new array, the one behind [r] untouched.
    The new array is local to the caller, so it is a value here rather
    than a heap object. *)
Definition reversed_copy (r : ref) : M (list BreakPoint) :=
  λ st, (Ok (reverse (st !!! r ++ [])), st).

(** [xs.map(f)] for an [f] that computes over the heap. *)
Fixpoint M_map {A B} (f : A → M B) (xs : list A) : M (list B) :=
  match xs with
  | [] => mret []
  | x :: rest => y ← f x; ys ← M_map f rest; mret (y :: ys)
  end.

(** ** The mutant classifier and the kill count *)

Section Classifier.
Variable gradedLocations : list LocationRange.

Definition mutatedFileContainsAGradedUnit (file : string) : bool :=
  bool_decide
    (List.find (λ mutatedLocation, Str.includes file (fileName mutatedLocation))
       gradedLocations ≠ None).

Definition mutantContainsThisGradedUnit (mutant : MutantResult) : bool :=
  bool_decide
    (List.find (λ mutatedLocation,
         number_leb (startLine mutatedLocation) (Num (line mutant)) &&
         number_geb (endLine mutatedLocation) (Num (line mutant)))
       gradedLocations ≠ None).

(** The inner [reduce]: one more for each mutant whose status is
    ['Killed']. *)
Definition killedIn (mutants : list MutantResult) : Z :=
  fold_left
    (λ mutantsFoundThisFile mutant,
       if String.eqb (status mutant) "Killed" then mutantsFoundThisFile + 1
       else mutantsFoundThisFile)
    mutants 0.

(** [Object.keys(files)] is the list of keys of the map; the order in
    which JavaScript lists them plays no role in a sum. *)
Definition mutantsDetected (mutationResults : MutationTestResult) : Z :=
  fold_left
    (λ mutantsFoundSoFar file,
       let mutants := files mutationResults !!! file in
       mutantsFoundSoFar +
       killedIn (List.filter mutantContainsThisGradedUnit mutants))
    (List.filter mutatedFileContainsAGradedUnit
       (map_to_list (files mutationResults)).*1)
    0.
End Classifier.

(** ** The unit grader

    [gradeMutationUnit], with the one expression in which the two
    revisions differ, the array that is scanned for the breakpoint hit,
    left as the parameter [scan]. *)

Definition gradeMutationUnit_with (scan : ref → M (list BreakPoint))
    (config : GradedUnit) (mutationResults : MutationTestResult) : M TestResult :=
  stored ← readArray (breakPoints config);
  let max_score := Math_max (pointsToAward <$> stored) in
  gradedLocations ← lift (result_map extractLocationInformation (locations config));
  let mutantsDetected := mutantsDetected gradedLocations mutationResults in
  (* Determine which break point we hit *)
  scanned ← scan (breakPoints config);
  let breakPointHit :=
    List.find (λ bp, minimumMutantsDetected bp <=? mutantsDetected) scanned in
  let score := match breakPointHit with
               | Some bp => pointsToAward bp
               | None => 0
               end in
  stored ← readArray (breakPoints config);
  match index stored (Z.of_nat (length stored) - 1) with
  | None => throw TypeError
  | Some last =>
      let maxMutantsToFind := minimumMutantsDetected last in
      mret {| score := score;
              max_score := max_score;
              test_name := name config;
              output := "Faults detected: " +:+ ToString mutantsDetected
                        +:+ "/" +:+ ToString maxMutantsToFind |}
  end.

Definition gradeStrykerResults_with (scan : ref → M (list BreakPoint))
    (schema : GradingConfig) (results : MutationTestResult) : M GraderOutput :=
  testResults ← M_map (λ gradedUnit, gradeMutationUnit_with scan gradedUnit results)
                      (gradedUnits schema);
  mret {| grader_output := Some "";
          stdout_visibility := hidden;
          tests := Some testResults;
          grader_score := None |}.

(** [src/main.ts]: [config.breakPoints.reverse().find(...)] *)
Module InPlace.
Definition gradeMutationUnit := gradeMutationUnit_with reverse_in_place.
Definition gradeStrykerResults := gradeStrykerResults_with reverse_in_place.
End InPlace.

(** The later revision:
    [config.breakPoints.concat([]).reverse()], then [find] on it. *)
Module Copying.
Definition gradeMutationUnit := gradeMutationUnit_with reversed_copy.
Definition gradeStrykerResults := gradeStrykerResults_with reversed_copy.
End Copying.

(** ** The configuration validator *)

(** The inner loop of [validateConfig], from a given [lastBP]. *)
Fixpoint validateBreakPoints (gradedUnitName : string) (lastBP : Z)
    (bps : list BreakPoint) : result unit :=
  match bps with
  | [] => Ok tt
  | breakPoint :: rest =>
      if minimumMutantsDetected breakPoint <=? lastBP
      then Throw (InvalidBreakpointOrdering gradedUnitName)
      else validateBreakPoints gradedUnitName (minimumMutantsDetected breakPoint) rest
  end.

(** The outer loop. *)
Fixpoint validateGradedUnits (units : list GradedUnit) : M unit :=
  match units with
  | [] => mret tt
  | gradedUnit :: rest =>
      stored ← readArray (breakPoints gradedUnit);
      _ ← lift (validateBreakPoints (name gradedUnit) (-1) stored);
      validateGradedUnits rest
  end.

Definition validateConfig (config : GradingConfig) : M unit :=
  validateGradedUnits (gradedUnits config).

(** * The vocabulary of the specification *)

(** ** Texts *)

Lemma startsWith_empty s : Str.startsWith s EmptyString = true.
Proof. by destruct s. Qed.

(** [t] occurs in [s]: some text, then [t], then some text. *)
Definition isSubstring (t s : string) : Prop :=
  ∃ before after, s = before +:+ t +:+ after.

Lemma startsWith_spec s t :
  Str.startsWith s t = true ↔ ∃ after, s = t +:+ after.
Proof.
  revert s. induction t as [|b t IH]; intros s; simpl.
  - rewrite startsWith_empty. split; [intros _; by exists s|done].
  - destruct s as [|a s].
    + split; [done|]. by intros [? ?].
    + simpl. rewrite andb_true_iff, IH. split.
      * intros [Hab [after ->]]. apply Ascii.eqb_eq in Hab as ->. eauto.
      * intros [after [= -> ->]]. rewrite Ascii.eqb_refl. eauto.
Qed.

Lemma includes_spec s t : Str.includes s t = true ↔ isSubstring t s.
Proof.
  induction s as [|a s IH].
  - cbn [Str.includes]. rewrite orb_false_r, startsWith_spec. split.
    + intros [after H]. by exists EmptyString, after.
    + intros ([|? ?] & after & H); [|done]. eauto.
  - cbn [Str.includes]. rewrite orb_true_iff, IH, startsWith_spec. split.
    + intros [[after H]|(before & after & H)].
      * by exists EmptyString, after.
      * exists (String a before), after. simpl. by rewrite H.
    + intros ([|b before] & after & H).
      * left. eauto.
      * right. injection H as -> ->. by exists before, after.
Qed.

Global Instance isSubstring_dec t s : Decision (isSubstring t s).
Proof.
  refine (cast_if (decide (Str.includes s t = true)));
    abstract (by rewrite <- includes_spec).
Defined.

Definition isDigit (c : ascii) : Prop := is_Some (Str.digit 10 c).

Fixpoint allDigits (s : string) : Prop :=
  match s with
  | EmptyString => True
  | String c rest => isDigit c ∧ allDigits rest
  end.

(** ** Breakpoint tables *)

Definition threshold_lt (a b : BreakPoint) : Prop :=
  minimumMutantsDetected a < minimumMutantsDetected b.

(** Each threshold is below the next one, in declared order. *)
Definition strictlyAscending (bps : list BreakPoint) : Prop :=
  Sorted threshold_lt bps.

(** [s] is the score the specification awards for the count [d]: the
    points of the breakpoint with the highest threshold that [d] reaches,
    0 when [d] reaches none, and the points of a breakpoint whose
    threshold is [d] itself. *)
Definition resolvedScore (bps : list BreakPoint) (d s : Z) : Prop :=
  (∀ bp, bp ∈ bps → minimumMutantsDetected bp ≤ d →
         (∀ other, other ∈ bps → minimumMutantsDetected other ≤ d →
                   minimumMutantsDetected other ≤ minimumMutantsDetected bp) →
         s = pointsToAward bp)
  ∧ ((∀ bp, bp ∈ bps → d < minimumMutantsDetected bp) → s = 0)
  ∧ (∀ bp, bp ∈ bps → minimumMutantsDetected bp = d → s = pointsToAward bp).

Global Instance threshold_lt_trans : Transitive threshold_lt.
Proof. unfold threshold_lt. intros a b c. lia. Qed.

Global Instance threshold_lt_dec : RelDecision threshold_lt.
Proof. intros a b. unfold threshold_lt. apply _. Defined.

Definition points_le (a b : BreakPoint) : Prop :=
  pointsToAward a ≤ pointsToAward b.

Global Instance points_le_dec : RelDecision points_le.
Proof. intros a b. unfold points_le. apply _. Defined.

Global Instance points_le_trans : Transitive points_le.
Proof. unfold points_le. intros a b c. lia. Qed.

(** The points never decrease along the table, in declared order. *)
Definition pointsAscending (bps : list BreakPoint) : Prop :=
  Sorted points_le bps.

(** Some breakpoint of the table does not have a threshold strictly
    above the one declared just before it. *)
Definition outOfOrder (bps : list BreakPoint) : Prop :=
  ∃ i a b, bps !! i = Some a ∧ bps !! S i = Some b
           ∧ ¬ minimumMutantsDetected a < minimumMutantsDetected b.

(** What the inner loop accepts: thresholds that rise strictly, starting
    above [lastBP]. *)
Definition risesFrom (lastBP : Z) (bps : list BreakPoint) : Prop :=
  Sorted Z.lt (lastBP :: (minimumMutantsDetected <$> bps)).

Global Instance risesFrom_dec lastBP bps : Decision (risesFrom lastBP bps).
Proof. unfold risesFrom. apply _. Defined.

(** ** Results *)

(** The score that the scan from the end of [bps] resolves for the kill
    count [d]. *)
Definition scoreFor (bps : list BreakPoint) (d : Z) : Z :=
  match List.find (λ bp, minimumMutantsDetected bp <=? d) (reverse bps) with
  | Some bp => pointsToAward bp
  | None => 0
  end.

Definition summary (detected target : Z) : string :=
  "Faults detected: " +:+ ToString detected +:+ "/" +:+ ToString target.

(** The result for a unit whose breakpoints are [bps] and whose summary
    reads its target from [target]; the exception when there is none. *)
Definition unitResult (config : GradedUnit) (bps : list BreakPoint)
    (target : option BreakPoint) (d : Z) : result TestResult :=
  match target with
  | None => Throw TypeError
  | Some last =>
      Ok {| score := scoreFor bps d;
            max_score := Math_max (pointsToAward <$> bps);
            test_name := name config;
            output := summary d (minimumMutantsDetected last) |}
  end.

Definition graderOutput (testResults : list TestResult) : GraderOutput :=
  {| grader_output := Some "";
     stdout_visibility := hidden;
     tests := Some testResults;
     grader_score := None |}.

(** ** Mutants that count *)

(** The line [n] lies between the two ends of the range, both included. *)
Definition within (range : LocationRange) (n : Z) : Prop :=
  match startLine range, endLine range with
  | Num a, Num b => a ≤ n ≤ b
  | _, _ => False
  end.

Global Instance within_dec range n : Decision (within range n).
Proof. unfold within. destruct (startLine range), (endLine range); apply _. Defined.

(** A mutant of the file [file] counts for the ranges [gradedLocations]:
    the path contains the file name of one of the ranges, the start line
    lies within one of the ranges, and the status is ["Killed"]. *)
Definition counts (gradedLocations : list LocationRange)
    (file : string) (mutant : MutantResult) : Prop :=
  Exists (λ range, isSubstring (fileName range) file) gradedLocations
  ∧ Exists (λ range, within range (line mutant)) gradedLocations
  ∧ status mutant = "Killed".

Global Instance counts_dec gradedLocations file mutant :
  Decision (counts gradedLocations file mutant).
Proof. unfold counts. apply _. Defined.

(** The number of mutants of the report that count. *)
Definition countedMutants (gradedLocations : list LocationRange)
    (mutationResults : MutationTestResult) : nat :=
  sum_list ((λ entry, length (filter (counts gradedLocations entry.1) entry.2))
              <$> map_to_list (files mutationResults)).

(** Every end of a parsed range is a number or [NaN]. *)
Definition parsed (range : LocationRange) : Prop :=
  startLine range ≠ NegInfinity ∧ endLine range ≠ NegInfinity.

(** ** The scenario of the specification *)

Module Scenario.

Definition bp (m p : Z) : BreakPoint :=
  {| minimumMutantsDetected := m; pointsToAward := p |}.

Definition mutant (s : string) (l : Z) : MutantResult :=
  {| status := s; line := l |}.

Definition U : GradedUnit :=
  {| name := "U"; breakPoints := 1%positive; locations := ["foo.ts:1-5"] |}.

Definition store : heap := {[ 1%positive := [bp 0 0; bp 3 5; bp 6 10] ]}.

Definition config : GradingConfig :=
  {| gradedUnits := [U]; submissionFiles := [] |}.

(** Six mutants at lines 1 to 5, four killed. *)
Definition report : MutationTestResult :=
  {| files := {[ "src/foo.ts" :=
       [mutant "Killed" 1; mutant "Killed" 2; mutant "Survived" 3;
        mutant "Killed" 4; mutant "Killed" 5; mutant "Survived" 5] ]} |}.

(** A second unit on the same lines that shares the array of [U]. *)
Definition V : GradedUnit :=
  {| name := "V"; breakPoints := 1%positive; locations := ["foo.ts:1-5"] |}.

Definition shared : GradingConfig :=
  {| gradedUnits := [U; V]; submissionFiles := [] |}.

End Scenario.

(** The locations of the unit of the scenario, parsed. *)
Definition scenarioLocations : list LocationRange :=
  [{| fileName := "foo.ts"; startLine := Num 1; endLine := Num 5 |}].

(** A table whose largest points come first: the maximum is 10, not the
    5 of the last breakpoint. *)
Definition decreasingPoints : heap :=
  {[ 1%positive := [Scenario.bp 0 10; Scenario.bp 5 5] ]}.

(** The unit of the scenario with its table emptied. *)
Definition emptyTable : heap := {[ 1%positive := [] ]}.

(** A table of one breakpoint, whose threshold is -1: nothing is declared
    before it, so it has no pair of breakpoints out of order. *)
Definition negativeFirst : heap := {[ 1%positive := [Scenario.bp (-1) 5] ]}.

(** Five killed mutants, and none, on the lines of the scenario. *)
Definition fiveKilled : MutationTestResult :=
  {| files := {[ "src/foo.ts" :=
       [Scenario.mutant "Killed" 1; Scenario.mutant "Killed" 2;
        Scenario.mutant "Killed" 3; Scenario.mutant "Killed" 4;
        Scenario.mutant "Killed" 5] ]} |}.

Definition noneKilled : MutationTestResult :=
  {| files := {[ "src/foo.ts" := [Scenario.mutant "Survived" 1] ]} |}.

(** The result of [src/main.ts] for the two units that share one array. *)
Definition sharedTests : list TestResult :=
  [{| score := 5; max_score := Num 10; test_name := "U";
      output := "Faults detected: 4/0" |};
   {| score := 0; max_score := Num 10; test_name := "V";
      output := "Faults detected: 4/6" |}].

(** * The run of the autograder

    [run] and the functions it calls: [runStryker], the two functions
    that execute a command, and [outputGrading]. What the program asks
    of its surroundings (the inputs of the action, the files, the
    commands it starts) is a [World] that holds the answers; what it
    leaves behind is a list of [Effect]s. The messages of [core.info]
    and [core.error] go to the log of the action only and are left out. *)

Module Text.

Definition nl : string := String "010" EmptyString.
Definition tab : string := String "009" EmptyString.

(** [s.trimEnd()] *)
Fixpoint trimEnd (s : string) : string :=
  match s with
  | EmptyString => EmptyString
  | String c rest =>
      match trimEnd rest with
      | EmptyString => if Str.isWhiteSpace c then EmptyString else String c EmptyString
      | kept => String c kept
      end
  end.

(** [s.trim()] *)
Definition trim (s : string) : string := trimEnd (Str.trimStart s).

(** [xs.join()], and the text of an array in a template: the elements
    with a comma between them. *)
Fixpoint join (xs : list string) : string :=
  match xs with
  | [] => EmptyString
  | [x] => x
  | x :: rest => x +:+ "," +:+ join rest
  end.

(** [s.split('\n')] *)
Definition lines (s : string) : list string := Str.split "010" s.

End Text.

(** An [Error] that a library throws. *)
Record Exception : Type := {
  exception_name : string;
  exception_message : string
}.

(** What one call of [exec.exec] did: the text it handed to the two
    listeners, and whether its promise was rejected. *)
Record Execution : Type := {
  stdout : string;
  stderr : string;
  rejected : bool
}.

(** [grading.yml] as parsed: the configuration, the arrays of breakpoints
    it refers to, and the two fields that the later revision adds to
    [GradingConfig] and reads, both taken to be present. *)
Record Loaded : Type := {
  schema : GradingConfig;
  tables : heap;
  expectedTSIgnore : Z;
  expectedESlintIgnore : Z
}.

Record World : Type := {
  (** [core.getInput('submission-directory', {})], empty when not set *)
  submission_directory : string;
  (** [process.argv] *)
  argv : list string;
  (** [YAML.parse(await fs.readFile('grading.yml', 'utf-8'))] *)
  grading_yml : Exception + Loaded;
  (** whether [io.cp(source, dest)] succeeds *)
  cp : string → string → bool;
  (** the submission files in the order in which their copies, which run
      side by side, came to an end *)
  cp_completed : list (string * string);
  (** [exec.exec(command, [], {cwd, listeners, ignoreReturnCode})] *)
  exec : string → bool → Execution;
  (** [exec.exec('npx', ['stryker', 'run'], {cwd})], when it is rejected *)
  stryker : option Exception;
  (** [JSON.parse] of the report that stryker wrote *)
  mutation_json : Exception + MutationTestResult;
  (** the [n]-th call of [fs.writeFile], when it is rejected *)
  writeFile : nat → string → option Exception
}.

(** The exceptions that reach the [catch] around the checks and the
    commands. *)
Inductive inner_failure : Type :=
| NoExpectedFiles (names : list string)
| TooManyESLintDisables (expected found : Z)
| TooManyTSIgnores (expected : Z) (found : list string)
| CommandFailed (output : string)
| Library (ex : Exception).

(** The exceptions that reach the outermost [catch], whose message goes
    to [core.setFailed]. *)
Inductive outer_failure : Type :=
| NoSubmissionDirectory
| Grading (e : error)
| Escaped (failure : inner_failure).

Inductive Effect : Type :=
| SetOutput (res : GraderOutput)
    (* core.setOutput('test-results', JSON.stringify(res)) *)
| WriteFile (outputFile : string) (res : GraderOutput)
    (* fs.writeFile(outputFile, JSON.stringify(res)), done *)
| SetFailed (failure : outer_failure).
    (* core.setFailed(error.message) *)

(** [err.toString()] *)
Definition toString (failure : inner_failure) : string :=
  let message :=
    match failure with
    | NoExpectedFiles names =>
        "This submission does not contain any of the expected files." +:+ Text.nl
        +:+ "          Please be sure to upload only the following files (not in a zip, not in a directory, just these files): "
        +:+ Text.join names
    | TooManyESLintDisables expected found =>
        "Only expected to find " +:+ ToString expected
        +:+ " eslint-disable annotations from the handout code, but found total of "
        +:+ ToString found +:+ ". You may not add additional eslint-disable flags."
    | TooManyTSIgnores expected found =>
        "Only expected to find " +:+ ToString expected
        +:+ " ts-ignore annotations from the handout code, but found total of "
        +:+ Text.join found +:+ ". You may not add additional eslint-disable flags."
    | CommandFailed output =>
        "Command failed with output:" +:+ Text.nl +:+ output
    | Library ex => exception_message ex
    end in
  let name :=
    match failure with
    | Library ex => exception_name ex
    | _ => "Error"
    end in
  if String.eqb name "" then message
  else if String.eqb message "" then name
  else name +:+ ": " +:+ message.

(** The state of the inner [try]: the text gathered in [generalOutput],
    the effects so far, and how often [fs.writeFile] was called. *)
Record RunState : Type := {
  generalOutput : string;
  effects : list Effect;
  writes : nat
}.

Definition Script (A : Type) : Type := RunState → (inner_failure + A) * RunState.

Global Instance Script_ret : MRet Script := λ A a s, (inr a, s).
Global Instance Script_bind : MBind Script := λ A B k m s,
  match m s with
  | (inr a, s') => k a s'
  | (inl failure, s') => (inl failure, s')
  end.

Definition fail {A} (failure : inner_failure) : Script A := λ s, (inl failure, s).

(** [generalOutput += text] *)
Definition say (text : string) : Script unit := λ s,
  (inr tt, {| generalOutput := generalOutput s +:+ text;
              effects := effects s;
              writes := writes s |}).

Definition emit (effect : Effect) : Script unit := λ s,
  (inr tt, {| generalOutput := generalOutput s;
              effects := effects s ++ [effect];
              writes := writes s |}).

(** [await fs.writeFile(outputFile, ...)] *)
Definition written (w : World) (outputFile : string) (res : GraderOutput)
  : Script unit := λ s,
  let s' := {| generalOutput := generalOutput s;
               effects := effects s;
               writes := S (writes s) |} in
  match writeFile w (writes s) outputFile with
  | Some ex => (inl (Library ex), s')
  | None => emit (WriteFile outputFile res) s'
  end.

Definition runStryker (w : World) : Exception + MutationTestResult :=
  match stryker w with
  | Some ex => inl ex
  | None => mutation_json w
  end.

(** The result of a submission that could not be graded. *)
Definition notGraded (text : string) : GraderOutput :=
  {| grader_output := Some text;
     stdout_visibility := visible;
     tests := None;
     grader_score := Some 0 |}.

Definition errorOccurred : string :=
  Text.nl +:+ Text.nl
  +:+ "^^^^ERROR OCURRED. This submission will not be graded until this/these errors are resolved. Your submission must pass 'npm install', 'npm run lint' and 'npm test' in order to be graded."
  +:+ Text.nl.

Definition internalError : string :=
  "An internal error occurred, and no test results were generated." +:+ Text.nl.

(** The innermost [try]: the mutation run and the grading, any exception
    of which becomes the result of an internal error. [grade] is the
    [gradeStrykerResults] of the revision. *)
Definition gradeOrInternalError (w : World)
    (grade : MutationTestResult → result GraderOutput) : Script GraderOutput := λ s,
  let graded :=
    match runStryker w with
    | inl _ => None
    | inr report =>
        match grade report with
        | Ok res => Some res
        | Throw _ => None
        end
    end in
  match graded with
  | Some res =>
      let text := generalOutput s +:+ "Tests successfully ran" in
      (inr {| grader_output := Some text;
              stdout_visibility := stdout_visibility res;
              tests := tests res;
              grader_score := grader_score res |},
       {| generalOutput := text; effects := effects s; writes := writes s |})
  | None =>
      let text := generalOutput s +:+ internalError in
      (inr (notGraded text),
       {| generalOutput := text; effects := effects s; writes := writes s |})
  end.

(** [await io.cp(submissionPath, `implementation-to-test/${dest}`)]
    came to an end without an exception. A submission file is the pair of
    its [name] and its [dest]. *)
Definition copied (w : World) (submissionDirectory : string)
    (submissionFile : string * string) : bool :=
  cp w (submissionDirectory +:+ "/" +:+ submissionFile.1)
       ("implementation-to-test/" +:+ submissionFile.2).

(** What a command handed to the two listeners, the standard output
    first: [myOutput + myError]. *)
Definition printed (w : World) (command : string) (ignoreFailures : bool) : string :=
  stdout (exec w command ignoreFailures) +:+ stderr (exec w command ignoreFailures).

(** The later revision of [main.ts] *)
Module CopyingRun.

Definition executeCommandAndGetOutput (w : World) (command : string)
    (ignoreFailures : bool) : Script string :=
  if rejected (exec w command ignoreFailures)
  then fail (CommandFailed (printed w command ignoreFailures))
  else mret (printed w command ignoreFailures).

Definition outputGrading (w : World) (res : GraderOutput) : Script unit :=
  _ ← emit (SetOutput res);
  if (3 <? length (argv w))%nat then
    match argv w !! 3%nat with
    | Some outputFile => written w outputFile res
    | None => mret tt
    end
  else mret tt.

(** The first lines of [run]: the directory of the submission. *)
Definition submissionDirectory (w : World) : outer_failure + string :=
  if String.eqb (submission_directory w) EmptyString then
    if (length (argv w) <? 3)%nat then inl NoSubmissionDirectory
    else inr (default EmptyString (argv w !! 2%nat))
  else inr (submission_directory w).

(** [generalOutput] after the copies. *)
Definition examined (w : World) (directory : string) : string :=
  foldl (λ text submissionFile,
           if copied w directory submissionFile
           then text +:+ Text.tab +:+ "Moved submitted file " +:+ submissionFile.1
                +:+ " to " +:+ submissionFile.2 +:+ Text.nl
           else text +:+ Text.tab +:+ "WARNING: Could not find submission file "
                +:+ submissionFile.1 +:+ Text.nl)
        ("CS4530 Spring 2022 HW3 grading script beginning..." +:+ Text.nl
         +:+ " Examining submission..." +:+ Text.nl)
        (cp_completed w).

(** The body of the inner [try]. *)
Definition attempt (w : World) (loaded : Loaded) (store : heap)
    (fileResults : list bool) : Script unit :=
  let anyFilesFound := List.find (λ v, v) fileResults in
  _ ← (if anyFilesFound is Some _ then mret tt
       else fail (NoExpectedFiles (submissionFiles (schema loaded)).*1));
  (* Check for eslint-disable, tsignore and fail *)
  grepped ← executeCommandAndGetOutput w "grep -ro eslint-disable src" true;
  let esLintDisables := Z.of_nat (length (Text.lines (Text.trim grepped))) in
  _ ← (if expectedESlintIgnore loaded <? esLintDisables
       then fail (TooManyESLintDisables (expectedESlintIgnore loaded) esLintDisables)
       else mret tt);
  grepped ← executeCommandAndGetOutput w "grep -ro ts-ignore src" true;
  let tsIgnores := Text.lines (Text.trim grepped) in
  _ ← (if (expectedTSIgnore loaded <? Z.of_nat (length tsIgnores))
          && negb ((length tsIgnores =? 1)%nat
                   && bool_decide (tsIgnores !! 0%nat = Some EmptyString))
       then fail (TooManyTSIgnores (expectedTSIgnore loaded) tsIgnores)
       else mret tt);
  (* install or fail *)
  _ ← say (Text.nl +:+ "Compiling submission..." +:+ Text.nl);
  _ ← executeCommandAndGetOutput w "npm install" false;
  _ ← say ("OK." +:+ Text.nl);
  (* lint or fail *)
  _ ← say (Text.nl +:+ "Running ESLint..." +:+ Text.nl);
  _ ← executeCommandAndGetOutput w
        "npx eslint . --ext .js,.jsx,.ts,.tsx -f visualstudio" false;
  _ ← say ("OK." +:+ Text.nl);
  (* Do dry run without stryker first, or fail *)
  _ ← say (Text.nl +:+ "Running tests without any faults, all tests must pass this step in order to receive any marks");
  _ ← executeCommandAndGetOutput w "npm test" false;
  _ ← say ("OK." +:+ Text.nl);
  _ ← say (Text.nl +:+ "Running tests with injected faults..." +:+ Text.nl);
  res ← gradeOrInternalError w
          (λ report, (Copying.gradeStrykerResults (schema loaded) report store).1);
  outputGrading w res.

(** The [catch] of the inner [try], whose own exception goes to the
    outermost [catch]. *)
Definition rescue (w : World) (failure : inner_failure) (s : RunState) : list Effect :=
  let text := generalOutput s +:+ toString failure +:+ errorOccurred in
  let caught := {| generalOutput := text;
                   effects := effects s;
                   writes := writes s |} in
  match outputGrading w (notGraded text) caught with
  | (inr _, s') => effects s'
  | (inl escaped, s') => effects s' ++ [SetFailed (Escaped escaped)]
  end.

Definition run (w : World) : list Effect :=
  match submissionDirectory w with
  | inl failure => [SetFailed failure]
  | inr directory =>
      match grading_yml w with
      | inl ex => [SetFailed (Escaped (Library ex))]
      | inr loaded =>
          match validateConfig (schema loaded) (tables loaded) with
          | (Throw e, _) => [SetFailed (Grading e)]
          | (Ok _, store) =>
              let fileResults := copied w directory <$> submissionFiles (schema loaded) in
              let start := {| generalOutput := examined w directory;
                              effects := [];
                              writes := 0 |} in
              match attempt w loaded store fileResults start with
              | (inr _, s) => effects s
              | (inl failure, s) => rescue w failure s
              end
          end
      end
  end.

End CopyingRun.

(** [src/main.ts] *)
Module InPlaceRun.

Definition executeCommandOrFailWithOutput (w : World) (command : string)
  : Script unit :=
  if rejected (exec w command false)
  then fail (CommandFailed (printed w command false))
  else mret tt.

(** The first lines of [run]: the directory of the submission. *)
Definition submissionDirectory (w : World) : string :=
  if String.eqb (submission_directory w) EmptyString
  then "solutions/non-green-tests"
  else submission_directory w.

(** [generalOutput] after the copies. *)
Definition examined (w : World) (directory : string) : string :=
  foldl (λ text submissionFile,
           if copied w directory submissionFile
           then text +:+ "Moved submitted file " +:+ submissionFile.1
                +:+ " to " +:+ submissionFile.2 +:+ Text.nl
           else text +:+ "WARNING: Could not find submission file "
                +:+ submissionFile.1 +:+ Text.nl)
        ("Grading submission..." +:+ Text.nl)
        (cp_completed w).

(** The body of the inner [try]. *)
Definition attempt (w : World) (loaded : Loaded) (store : heap) : Script unit :=
  (* install or fail *)
  _ ← say ("Compiling submission..." +:+ Text.nl);
  _ ← executeCommandOrFailWithOutput w "npm install";
  _ ← say ("OK." +:+ Text.nl);
  (* lint or fail *)
  _ ← say ("Running ESLint..." +:+ Text.nl);
  _ ← executeCommandOrFailWithOutput w
        "npx eslint . --ext .js,.jsx,.ts,.tsx -f visualstudio";
  _ ← say ("OK." +:+ Text.nl);
  (* Do dry run without stryker first, or fail *)
  _ ← say "Running tests without any faults, all tests must pass this step in order to receive any marks";
  _ ← executeCommandOrFailWithOutput w "npm test";
  _ ← say ("OK." +:+ Text.nl);
  _ ← say ("Checking that tests run successfully without faults injected" +:+ Text.nl);
  _ ← say ("Running tests with injected faults..." +:+ Text.nl);
  res ← gradeOrInternalError w
          (λ report, (InPlace.gradeStrykerResults (schema loaded) report store).1);
  emit (SetOutput res).

(** The [catch] of the inner [try]. *)
Definition rescue (failure : inner_failure) (s : RunState) : list Effect :=
  let text := generalOutput s +:+ toString failure +:+ errorOccurred in
  effects s ++ [SetOutput (notGraded text)].

Definition run (w : World) : list Effect :=
  match grading_yml w with
  | inl ex => [SetFailed (Escaped (Library ex))]
  | inr loaded =>
      match validateConfig (schema loaded) (tables loaded) with
      | (Throw e, _) => [SetFailed (Grading e)]
      | (Ok _, store) =>
          let start := {| generalOutput := examined w (submissionDirectory w);
                          effects := [];
                          writes := 0 |} in
          match attempt w loaded store start with
          | (inr _, s) => effects s
          | (inl failure, s) => rescue failure s
          end
      end
  end.

End InPlaceRun.

(** The same surroundings with another mutation run. *)
Definition withStryker (w : World) (failed : option Exception)
    (report : Exception + MutationTestResult) : World :=
  {| submission_directory := submission_directory w;
     argv := argv w;
     grading_yml := grading_yml w;
     cp := cp w;
     cp_completed := cp_completed w;
     exec := exec w;
     stryker := failed;
     mutation_json := report;
     writeFile := writeFile w |}.

(** The same surroundings where the commands do something else. *)
Definition withExec (w : World) (commands : string → bool → Execution) : World :=
  {| submission_directory := submission_directory w;
     argv := argv w;
     grading_yml := grading_yml w;
     cp := cp w;
     cp_completed := cp_completed w;
     exec := commands;
     stryker := stryker w;
     mutation_json := mutation_json w;
     writeFile := writeFile w |}.

(** A result that carries the results of the tests. *)
Definition graded (res : GraderOutput) : Prop := is_Some (tests res).

(** An effect that hands out a graded result. *)
Definition handsOutGrades (effect : Effect) : Prop :=
  match effect with
  | SetOutput res | WriteFile _ res => graded res
  | SetFailed _ => False
  end.

(** The shape of a result that [run] hands out for a configuration with
    the units [units]: a visible score of 0 without tests, or the hidden
    results of the tests, one for each unit, without a score. *)
Definition handedOut (units : list GradedUnit) (res : GraderOutput) : Prop :=
  (∃ text, res = notGraded text)
  ∨ (∃ text testResults,
       res = {| grader_output := Some text;
                stdout_visibility := hidden;
                tests := Some testResults;
                grader_score := None |}
       ∧ length testResults = length units).

(** The unit cannot be graded: it has no breakpoint, or a location that
    [extractLocationInformation] refuses. *)
Definition ungradable (st : heap) (u : GradedUnit) : Prop :=
  st !!! breakPoints u = []
  ∨ ∃ e, result_map extractLocationInformation (locations u) = Throw e.

(** Surroundings in which a submission of one file is graded with the
    configuration of the scenario. *)
Module Surroundings.

Definition quiet : Execution :=
  {| stdout := EmptyString; stderr := EmptyString; rejected := false |}.

Definition refused : Execution :=
  {| stdout := "npm ERR!"; stderr := EmptyString; rejected := true |}.

Definition config (units : list GradedUnit) : GradingConfig :=
  {| gradedUnits := units;
     submissionFiles := [("a.test.ts", "src/a.test.ts")] |}.

Definition loaded (units : list GradedUnit) (st : heap) (ts eslint : Z) : Loaded :=
  {| schema := config units;
     tables := st;
     expectedTSIgnore := ts;
     expectedESlintIgnore := eslint |}.

Definition world (yml : Loaded) (found : bool) (commands : string → bool → Execution)
    (arguments : list string) (writing : nat → string → option Exception) : World :=
  {| submission_directory := "submission";
     argv := arguments;
     grading_yml := inr yml;
     cp := λ _ _, found;
     cp_completed := submissionFiles (schema yml);
     exec := commands;
     stryker := None;
     mutation_json := inr Scenario.report;
     writeFile := writing |}.

Definition noSpace : Exception :=
  {| exception_name := "Error"; exception_message := "ENOSPC: no space left on device" |}.

(** Every command comes to an end and prints nothing. *)
Definition allQuiet : string → bool → Execution := λ _ _, quiet.

(** [npm test] fails. *)
Definition testsFail : string → bool → Execution := λ command _,
  if String.eqb command "npm test" then refused else quiet.

(** No file is asked for, and no write is rejected. *)
Definition plain : list string := ["node"; "main.js"].

Definition writable : nat → string → option Exception := λ _ _, None.

(** The result is to be written to [results.json], and the first write
    is rejected. *)
Definition toFile : list string := ["node"; "main.js"; "submission"; "results.json"].

Definition diskFull : nat → string → option Exception := λ n _,
  match n with
  | 0%nat => Some noSpace
  | _ => None
  end.

(** The configuration of the scenario with the tolerance [eslint] for
    [eslint-disable] and one below zero for [ts-ignore]. *)
Definition scenario (eslint : Z) : Loaded :=
  loaded [Scenario.U] Scenario.store (-1) eslint.

End Surroundings.

(** ** Vocabulary of the further properties *)

(** Text that ends a decimal numeral in front of it: nothing, or a first
    character that is neither a digit nor the [x] of a [0x] prefix. *)
Definition endsNumber (rest : string) : Prop :=
  match rest with
  | EmptyString => True
  | String c _ => Str.digit 10 c = None ∧ c ≠ "x"%char ∧ c ≠ "X"%char
  end.

(** A table that descends: 4 kills reach both thresholds, and the last
    declared one wins, not the highest. *)
Definition descendingTable : heap :=
  {[ 1%positive := [Scenario.bp 3 5; Scenario.bp 0 1] ]}.





(** In [st'] every table is as it is in [st], or reversed. *)
Definition upToReversal (st st' : heap) : Prop :=
  ∀ r, st' !!! r = st !!! r ∨ st' !!! r = reverse (st !!! r).

(** The number of mutants of the report whose status is ["Killed"]. *)
Definition killedMutants (mutationResults : MutationTestResult) : nat :=
  sum_list ((λ entry, length (filter (λ mutant, status mutant = "Killed") entry.2))
              <$> map_to_list (files mutationResults)).

(** * Properties *)

(** ** Strings *)

Section StringFacts.

Lemma split_length sep s :
  length (Str.split sep s) = S (Str.occurrences sep s).
Proof.
  induction s as [|c s IH]; simpl; [done|].
  destruct (Ascii.eqb c sep); simpl.
  - by rewrite IH.
  - destruct (Str.split sep s); simpl in *; lia.
Qed.

Lemma split_no_sep sep s :
  Str.occurrences sep s = 0%nat → Str.split sep s = [s].
Proof.
  induction s as [|c s IH]; simpl; [done|].
  destruct (Ascii.eqb c sep); [done|].
  intros H. by rewrite IH.
Qed.

Lemma split_first sep s t :
  Str.occurrences sep s = 0%nat →
  Str.split sep (s +:+ String sep t) = s :: Str.split sep t.
Proof.
  induction s as [|c s IH]; simpl.
  - by rewrite Ascii.eqb_refl.
  - destruct (Ascii.eqb c sep); [done|].
    intros H. by rewrite IH.
Qed.

Lemma occurrences_app c s t :
  Str.occurrences c (s +:+ t) = (Str.occurrences c s + Str.occurrences c t)%nat.
Proof. induction s as [|a s IH]; simpl; [done|]. rewrite IH. lia. Qed.

Lemma includes_char_none c s :
  Str.occurrences c s = 0%nat → Str.includes s (String c EmptyString) = false.
Proof.
  induction s as [|a s IH]; simpl; [done|].
  destruct (Ascii.eqb a c); [done|].
  intros H. by rewrite IH.
Qed.

Lemma includes_char_some c s :
  Str.occurrences c s ≠ 0%nat → Str.includes s (String c EmptyString) = true.
Proof.
  induction s as [|a s IH]; simpl; [done|].
  rewrite startsWith_empty.
  destruct (Ascii.eqb a c); simpl; [done|].
  intros H. by rewrite IH.
Qed.

End StringFacts.

(** ** Decimal numerals *)

Section Numerals.

Lemma string_of_uint_digits d : allDigits (NilEmpty.string_of_uint d).
Proof. induction d; simpl; (done || (split; [by eexists|done])). Qed.

Lemma allDigits_occurrences c s :
  ¬ isDigit c → allDigits s → Str.occurrences c s = 0%nat.
Proof.
  intros Hc. induction s as [|a s IH]; simpl; [done|].
  intros [Ha Hs]. rewrite IH by done.
  destruct (Ascii.eqb_spec a c) as [->|]; [done|lia].
Qed.

Lemma digits_acc l p :
  Str.digits 10 (NilEmpty.string_of_uint l) (Some (Z.pos p))
  = Some (Z.pos (Pos.of_uint_acc l p)).
Proof.
  revert p. induction l; intros p; simpl; [done|..].
  all: unfold Str.digit; simpl; rewrite <- IHl; do 2 f_equal.
  all: match goal with
       | |- context [Z.of_nat (nat_of_ascii ?c)] =>
           let v := eval vm_compute in (Z.of_nat (nat_of_ascii c)) in
           change (Z.of_nat (nat_of_ascii c)) with v
       end; lia.
Qed.

Lemma digits_value d acc :
  d ≠ Decimal.Nil →
  default 0 acc = 0 →
  Str.digits 10 (NilEmpty.string_of_uint d) acc = Some (Z.of_N (Pos.of_uint d)).
Proof.
  revert acc. induction d; intros acc Hd Hacc; simpl; [done|..];
    unfold Str.digit; simpl; rewrite Hacc; simpl;
    try apply digits_acc.
  destruct d; try (apply IHd; done). done.
Qed.

(** On a numeral [parseInt] finds no white space, sign or [0x] to
    strip. *)
Lemma parseInt_numeral_digits d :
  Str.parseInt (NilEmpty.string_of_uint d)
  = match Str.digits 10 (NilEmpty.string_of_uint d) None with
    | Some v => Num (1 * v)
    | None => NaN
    end.
Proof. destruct d as [|d|d|d|d|d|d|d|d|d|d]; try reflexivity; by destruct d. Qed.

Lemma parseInt_numeral d :
  d ≠ Decimal.Nil →
  Str.parseInt (NilEmpty.string_of_uint d) = Num (Z.of_N (Pos.of_uint d)).
Proof.
  intros Hd. rewrite parseInt_numeral_digits, (digits_value d None) by done.
  f_equal. lia.
Qed.

(** The decimal text of a natural number, without its sign. *)
Lemma ToString_numeral z :
  0 ≤ z →
  ∃ d, d ≠ Decimal.Nil ∧ ToString z = NilEmpty.string_of_uint d
       ∧ Z.of_N (Pos.of_uint d) = z.
Proof.
  intros Hz. destruct z as [|p|p]; [| |lia].
  - by exists (Decimal.D0 Decimal.Nil).
  - exists (Pos.to_uint p). split_and!.
    + apply DecimalPos.Unsigned.to_uint_nonnil.
    + unfold ToString. simpl.
      pose proof (DecimalPos.Unsigned.to_uint_nonnil p).
      by destruct (Pos.to_uint p).
    + by rewrite DecimalPos.Unsigned.of_to.
Qed.

Lemma parseInt_ToString z : 0 ≤ z → Str.parseInt (ToString z) = Num z.
Proof.
  intros (d & Hd & -> & <-)%ToString_numeral. by apply parseInt_numeral.
Qed.

Lemma ToString_allDigits z : 0 ≤ z → allDigits (ToString z).
Proof.
  intros (d & Hd & -> & _)%ToString_numeral. apply string_of_uint_digits.
Qed.

End Numerals.

(** ** The location parser *)

Section LocationParser.

Lemma not_digit_colon : ¬ isDigit ":".
Proof. by intros [? [=]]. Qed.

Lemma not_digit_dash : ¬ isDigit "-".
Proof. by intros [? [=]]. Qed.

Lemma extract_single file lineSpec :
  Str.occurrences ":" file = 0%nat →
  Str.occurrences ":" lineSpec = 0%nat →
  Str.occurrences "-" lineSpec = 0%nat →
  extractLocationInformation (file +:+ ":" +:+ lineSpec)
  = Ok {| fileName := file;
          startLine := Str.parseInt lineSpec;
          endLine := Str.parseInt lineSpec |}.
Proof.
  intros Hfile Hcolon Hdash. unfold extractLocationInformation.
  change (file +:+ ":" +:+ lineSpec) with (file +:+ String ":" lineSpec).
  rewrite split_first, split_no_sep by done. simpl.
  by rewrite includes_char_none.
Qed.

Lemma extract_range file lo hi :
  Str.occurrences ":" file = 0%nat →
  Str.occurrences ":" lo = 0%nat → Str.occurrences ":" hi = 0%nat →
  Str.occurrences "-" lo = 0%nat → Str.occurrences "-" hi = 0%nat →
  extractLocationInformation (file +:+ ":" +:+ lo +:+ "-" +:+ hi)
  = Ok {| fileName := file;
          startLine := Str.parseInt lo;
          endLine := Str.parseInt hi |}.
Proof.
  intros Hfile Hlo Hhi Hlo' Hhi'. unfold extractLocationInformation.
  change (file +:+ ":" +:+ lo +:+ "-" +:+ hi)
    with (file +:+ String ":" (lo +:+ String "-" hi)).
  rewrite split_first by done. rewrite split_no_sep.
  2:{ rewrite occurrences_app. simpl. lia. }
  simpl. rewrite includes_char_some.
  2:{ rewrite occurrences_app. simpl. lia. }
  by rewrite split_first, split_no_sep.
Qed.

Lemma extract_columns location :
  (1 < Str.occurrences ":" location)%nat →
  extractLocationInformation location = Throw UnsupportedLocationFormat.
Proof.
  intros H. unfold extractLocationInformation. rewrite split_length.
  by destruct (Nat.ltb_spec 2 (S (Str.occurrences ":" location))); [|lia].
Qed.

(** The exception for columns is thrown for those locations only. *)
Lemma extract_columns_only location :
  extractLocationInformation location = Throw UnsupportedLocationFormat →
  (1 < Str.occurrences ":" location)%nat.
Proof.
  unfold extractLocationInformation. rewrite split_length.
  destruct (Nat.ltb_spec 2 (S (Str.occurrences ":" location))); [lia|].
  intros Hthrow. repeat case_match; done.
Qed.

End LocationParser.

(** C5. The location parser maps [<fileName>:<n>] to the range from [n] to
    [n] in [fileName] and [<fileName>:<a>-<b>] to the range from [a] to
    [b], for a file name without [:] and line numbers written in decimal,
    and throws the exception for column mutators on every text with more
    than one [:]. *)
Theorem extractLocationInformation_formats
    (file : string) (n a b : Z) (columns : string) :
  Str.occurrences ":" file = 0%nat →
  0 ≤ n → 0 ≤ a → 0 ≤ b →
  (1 < Str.occurrences ":" columns)%nat →
  extractLocationInformation (file +:+ ":" +:+ ToString n)
  = Ok {| fileName := file; startLine := Num n; endLine := Num n |}
  ∧ extractLocationInformation (file +:+ ":" +:+ ToString a +:+ "-" +:+ ToString b)
    = Ok {| fileName := file; startLine := Num a; endLine := Num b |}
  ∧ extractLocationInformation columns = Throw UnsupportedLocationFormat.
Proof.
  intros Hfile Hn Ha Hb Hcolumns.
  pose proof (λ z Hz, allDigits_occurrences ":" (ToString z) not_digit_colon
                        (ToString_allDigits z Hz)) as Hcolon.
  pose proof (λ z Hz, allDigits_occurrences "-" (ToString z) not_digit_dash
                        (ToString_allDigits z Hz)) as Hdash.
  split_and!.
  - rewrite extract_single by auto. by rewrite parseInt_ToString.
  - rewrite extract_range by auto. by rewrite !parseInt_ToString.
  - by apply extract_columns.
Qed.

(** The three locations of the specification. *)
Lemma extractLocationInformation_formats_witness :
  extractLocationInformation "a/b.ts:10"
  = Ok {| fileName := "a/b.ts"; startLine := Num 10; endLine := Num 10 |}
  ∧ extractLocationInformation "a/b.ts:10-20"
    = Ok {| fileName := "a/b.ts"; startLine := Num 10; endLine := Num 20 |}
  ∧ extractLocationInformation "a/b.ts:10:2" = Throw UnsupportedLocationFormat.
Proof.
  apply (extractLocationInformation_formats "a/b.ts" 10 10 20 "a/b.ts:10:2");
    (reflexivity || lia || (vm_compute; lia)).
Defined.

(** ** What one call of the unit grader computes *)

Section UnitGrader.
Context (config : GradedUnit) (mutationResults : MutationTestResult) (st : heap).

Lemma index_last {A} (xs : list A) : index xs (Z.of_nat (length xs) - 1) = last xs.
Proof.
  unfold index. destruct xs as [|x xs _] using rev_ind; [done|].
  rewrite length_app, last_snoc. simpl.
  destruct (Z.ltb_spec (Z.of_nat (length xs + 1) - 1) 0); [lia|].
  replace (Z.to_nat (Z.of_nat (length xs + 1) - 1)) with (length xs) by lia.
  by rewrite list_lookup_middle.
Qed.

(** A location that does not parse stops the call before anything is
    written. *)
Lemma gradeMutationUnit_with_throw scan e :
  result_map extractLocationInformation (locations config) = Throw e →
  gradeMutationUnit_with scan config mutationResults st = (Throw e, st).
Proof.
  intros Hlocs. unfold gradeMutationUnit_with, mbind, M_bind, readArray, lift.
  by rewrite Hlocs.
Qed.

Lemma InPlace_gradeMutationUnit_run gradedLocations :
  result_map extractLocationInformation (locations config) = Ok gradedLocations →
  let bps := st !!! breakPoints config in
  InPlace.gradeMutationUnit config mutationResults st
  = (unitResult config bps (head bps) (mutantsDetected gradedLocations mutationResults),
     <[breakPoints config := reverse bps]> st).
Proof.
  intros Hlocs bps.
  unfold InPlace.gradeMutationUnit, gradeMutationUnit_with, mbind, M_bind,
    readArray, lift, reverse_in_place, throw, mret, M_ret.
  rewrite Hlocs. fold bps. rewrite lookup_total_insert_eq, index_last, last_reverse.
  unfold unitResult. by destruct (head bps).
Qed.

Lemma Copying_gradeMutationUnit_run gradedLocations :
  result_map extractLocationInformation (locations config) = Ok gradedLocations →
  let bps := st !!! breakPoints config in
  Copying.gradeMutationUnit config mutationResults st
  = (unitResult config bps (last bps) (mutantsDetected gradedLocations mutationResults),
     st).
Proof.
  intros Hlocs bps.
  unfold Copying.gradeMutationUnit, gradeMutationUnit_with, mbind, M_bind,
    readArray, lift, reversed_copy, throw, mret, M_ret.
  rewrite Hlocs. fold bps. rewrite index_last, app_nil_r.
  unfold unitResult. by destruct (last bps).
Qed.

End UnitGrader.

(** ** Breakpoint resolution *)

Section Resolution.

Lemma strictlyAscending_strong bps :
  strictlyAscending bps → StronglySorted threshold_lt bps.
Proof. apply Sorted_StronglySorted, _. Qed.

Lemma strictlyAscending_snoc bps x :
  strictlyAscending (bps ++ [x]) →
  strictlyAscending bps ∧ ∀ bp, bp ∈ bps → threshold_lt bp x.
Proof.
  intros Hs%strictlyAscending_strong. split.
  - apply StronglySorted_Sorted. by eapply StronglySorted_app_1_l.
  - intros bp Hbp. eapply StronglySorted_app_1_elem_of; [done..|]. set_solver.
Qed.

Lemma scoreFor_snoc bps x d :
  scoreFor (bps ++ [x]) d
  = if minimumMutantsDetected x <=? d then pointsToAward x else scoreFor bps d.
Proof.
  unfold scoreFor. rewrite reverse_snoc. simpl.
  by destruct (minimumMutantsDetected x <=? d).
Qed.

Lemma scoreFor_highest bps d bp :
  strictlyAscending bps →
  bp ∈ bps →
  minimumMutantsDetected bp ≤ d →
  (∀ other, other ∈ bps → minimumMutantsDetected other ≤ d →
            minimumMutantsDetected other ≤ minimumMutantsDetected bp) →
  scoreFor bps d = pointsToAward bp.
Proof.
  induction bps as [|x bps IH] using rev_ind; intros Hs Hin Hle Hmax.
  - by apply elem_of_nil in Hin.
  - apply strictlyAscending_snoc in Hs as [Hs Hx]. rewrite scoreFor_snoc.
    apply elem_of_app in Hin as [Hin| ->%list_elem_of_singleton].
    + destruct (Z.leb_spec (minimumMutantsDetected x) d) as [Hxd|Hxd].
      * specialize (Hx bp Hin). unfold threshold_lt in Hx.
        assert (minimumMutantsDetected x ≤ minimumMutantsDetected bp)
          by (apply Hmax; [set_solver|lia]).
        lia.
      * apply IH; [done..|]. intros other Hother. apply Hmax. set_solver.
    + by destruct (Z.leb_spec (minimumMutantsDetected x) d); [|lia].
Qed.

Lemma scoreFor_below bps d :
  (∀ bp, bp ∈ bps → d < minimumMutantsDetected bp) → scoreFor bps d = 0.
Proof.
  induction bps as [|x bps IH] using rev_ind; intros Hall; [done|].
  rewrite scoreFor_snoc.
  destruct (Z.leb_spec (minimumMutantsDetected x) d) as [Hxd|Hxd].
  - assert (d < minimumMutantsDetected x) by (apply Hall; set_solver). lia.
  - apply IH. intros bp Hbp. apply Hall. set_solver.
Qed.

Lemma scoreFor_resolved bps d :
  strictlyAscending bps → resolvedScore bps d (scoreFor bps d).
Proof.
  intros Hs. split_and!.
  - intros bp ???. by apply scoreFor_highest.
  - apply scoreFor_below.
  - intros bp Hin <-. apply scoreFor_highest; [done..|lia|]. intros; lia.
Qed.

End Resolution.

(** ** The unit grader: score, maximum, summary *)

Section NonEmpty.

Lemma head_is_Some {A} (xs : list A) : xs ≠ [] → ∃ x, head xs = Some x.
Proof. destruct xs; [done|eauto]. Qed.

Lemma last_is_Some' {A} (xs : list A) : xs ≠ [] → ∃ x, last xs = Some x.
Proof.
  destruct xs as [|x xs _] using rev_ind; [done|].
  rewrite last_snoc. eauto.
Qed.

(** With at least one breakpoint and locations that parse, both
    revisions return a result: the one that [unitResult] describes. *)
Lemma gradeMutationUnit_returns config mutationResults (st : heap) gradedLocations :
  result_map extractLocationInformation (locations config) = Ok gradedLocations →
  st !!! breakPoints config ≠ [] →
  let bps := st !!! breakPoints config in
  let d := mutantsDetected gradedLocations mutationResults in
  ∃ first last r1 r2,
    head bps = Some first ∧ list.last bps = Some last
    ∧ unitResult config bps (Some first) d = Ok r1
    ∧ unitResult config bps (Some last) d = Ok r2
    ∧ InPlace.gradeMutationUnit config mutationResults st
      = (Ok r1, <[breakPoints config := reverse bps]> st)
    ∧ Copying.gradeMutationUnit config mutationResults st = (Ok r2, st).
Proof.
  intros Hlocs Hne bps d.
  destruct (head_is_Some bps Hne) as [first Hfirst].
  destruct (last_is_Some' bps Hne) as [last Hlast].
  exists first, last. do 2 eexists. split_and!; [done..| |].
  - rewrite (InPlace_gradeMutationUnit_run _ _ _ _ Hlocs). fold bps.
    by rewrite Hfirst.
  - rewrite (Copying_gradeMutationUnit_run _ _ _ _ Hlocs). fold bps.
    by rewrite Hlast.
Qed.

Lemma fold_left_max_ge xs x : x ≤ fold_left Z.max xs x.
Proof.
  revert x. induction xs as [|y xs IH]; intros x; simpl; [lia|].
  etrans; [|apply IH]. lia.
Qed.

Lemma fold_left_max_elem xs x : fold_left Z.max xs x ∈ x :: xs.
Proof.
  revert x. induction xs as [|y xs IH]; intros x; simpl; [apply list_elem_of_here|].
  destruct (Z.max_spec x y) as [[_ Hm]|[_ Hm]]; rewrite Hm.
  - apply list_elem_of_further, IH.
  - destruct (proj1 (elem_of_cons _ _ _) (IH x)) as [Hx|Hx].
    + rewrite Hx. apply list_elem_of_here.
    + by do 2 apply list_elem_of_further.
Qed.

Lemma fold_left_max_upper xs x y : y ∈ x :: xs → y ≤ fold_left Z.max xs x.
Proof.
  revert x. induction xs as [|z xs IH]; intros x; simpl.
  - intros ->%list_elem_of_singleton. lia.
  - intros [->|[->|Hy]%elem_of_cons]%elem_of_cons.
    + etrans; [|apply fold_left_max_ge]. lia.
    + etrans; [|apply fold_left_max_ge]. lia.
    + apply IH. set_solver.
Qed.

Lemma Math_max_spec xs :
  xs ≠ [] → ∃ m, Math_max xs = Num m ∧ m ∈ xs ∧ ∀ x, x ∈ xs → x ≤ m.
Proof.
  destruct xs as [|x xs]; [done|]. intros _. eexists. split_and!; [done|..].
  - apply fold_left_max_elem.
  - intros y. apply fold_left_max_upper.
Qed.

End NonEmpty.

(** C1. For a unit whose table is not empty and strictly ascending, the
    score that [gradeMutationUnit] returns, in either revision, is the
    points of the breakpoint with the highest threshold that the kill
    count reaches, 0 when the count is below every threshold, and the
    points of a breakpoint whose threshold is the count itself. *)
Theorem gradeMutationUnit_score config mutationResults (st : heap) gradedLocations :
  result_map extractLocationInformation (locations config) = Ok gradedLocations →
  st !!! breakPoints config ≠ [] →
  strictlyAscending (st !!! breakPoints config) →
  let bps := st !!! breakPoints config in
  let d := mutantsDetected gradedLocations mutationResults in
  ∃ r1 st1 r2,
    InPlace.gradeMutationUnit config mutationResults st = (Ok r1, st1)
    ∧ Copying.gradeMutationUnit config mutationResults st = (Ok r2, st)
    ∧ resolvedScore bps d (score r1)
    ∧ resolvedScore bps d (score r2).
Proof.
  intros Hlocs Hne Hsorted bps d.
  destruct (gradeMutationUnit_returns _ mutationResults _ _ Hlocs Hne)
    as (first & last & r1 & r2 & _ & _ & [= <-] & [= <-] & Hr1 & Hr2).
  do 3 eexists. split_and!; [done..| |]; by apply scoreFor_resolved.
Qed.

Lemma gradeMutationUnit_score_witness :
  ∃ r1 st1 r2,
    InPlace.gradeMutationUnit Scenario.U Scenario.report Scenario.store = (Ok r1, st1)
    ∧ Copying.gradeMutationUnit Scenario.U Scenario.report Scenario.store
      = (Ok r2, Scenario.store)
    ∧ resolvedScore (Scenario.store !!! 1%positive)
        (mutantsDetected scenarioLocations Scenario.report) (score r1)
    ∧ resolvedScore (Scenario.store !!! 1%positive)
        (mutantsDetected scenarioLocations Scenario.report) (score r2).
Proof.
  apply (gradeMutationUnit_score Scenario.U Scenario.report Scenario.store
           scenarioLocations).
  - reflexivity.
  - vm_compute. discriminate.
  - apply (bool_decide_unpack _). vm_compute. exact I.
Defined.

(** C8. For a unit with at least one breakpoint, [max_score] is the
    largest [pointsToAward] of the table, wherever in the table it
    stands. *)
Theorem gradeMutationUnit_max_score config mutationResults (st : heap) gradedLocations :
  result_map extractLocationInformation (locations config) = Ok gradedLocations →
  st !!! breakPoints config ≠ [] →
  let bps := st !!! breakPoints config in
  ∃ r1 st1 r2 m,
    InPlace.gradeMutationUnit config mutationResults st = (Ok r1, st1)
    ∧ Copying.gradeMutationUnit config mutationResults st = (Ok r2, st)
    ∧ max_score r1 = Num m ∧ max_score r2 = Num m
    ∧ (∃ bp, bp ∈ bps ∧ pointsToAward bp = m)
    ∧ (∀ bp, bp ∈ bps → pointsToAward bp ≤ m).
Proof.
  intros Hlocs Hne bps.
  destruct (gradeMutationUnit_returns _ mutationResults _ _ Hlocs Hne)
    as (first & last & r1 & r2 & _ & _ & [= <-] & [= <-] & Hr1 & Hr2).
  destruct (Math_max_spec (pointsToAward <$> bps)) as (m & Hm & Hin & Hmax).
  { by intros ?%fmap_nil_inv. }
  eexists _, _, _, m. split_and!; [done..| |].
  - apply list_elem_of_fmap in Hin as (bp & -> & Hbp). eauto.
  - intros bp Hbp. apply Hmax. by apply list_elem_of_fmap_2.
Qed.

Lemma gradeMutationUnit_max_score_witness :
  ∃ r1 st1 r2 m,
    InPlace.gradeMutationUnit Scenario.U Scenario.report decreasingPoints = (Ok r1, st1)
    ∧ Copying.gradeMutationUnit Scenario.U Scenario.report decreasingPoints
      = (Ok r2, decreasingPoints)
    ∧ max_score r1 = Num m ∧ max_score r2 = Num m
    ∧ (∃ bp, bp ∈ decreasingPoints !!! 1%positive ∧ pointsToAward bp = m)
    ∧ (∀ bp, bp ∈ decreasingPoints !!! 1%positive → pointsToAward bp ≤ m).
Proof.
  apply (gradeMutationUnit_max_score Scenario.U Scenario.report decreasingPoints
           scenarioLocations).
  - reflexivity.
  - vm_compute. discriminate.
Defined.

(** ** The summary and the stored table *)

(** The summary of [src/main.ts] is read after the array was reversed
    where it is stored: its target is the threshold of the first
    breakpoint declared. *)
Lemma InPlace_summary config mutationResults (st : heap) gradedLocations first :
  result_map extractLocationInformation (locations config) = Ok gradedLocations →
  head (st !!! breakPoints config) = Some first →
  ∃ r st1,
    InPlace.gradeMutationUnit config mutationResults st = (Ok r, st1)
    ∧ output r = summary (mutantsDetected gradedLocations mutationResults)
                         (minimumMutantsDetected first).
Proof.
  intros Hlocs Hfirst.
  rewrite (InPlace_gradeMutationUnit_run _ _ _ _ Hlocs), Hfirst. by eexists _, _.
Qed.

(** C6. For a unit with at least one breakpoint the summary of the later
    revision is ["Faults detected: <d>/<t>"], with [d] the kill count and
    [t] the threshold of the last breakpoint declared. [src/main.ts]
    prints the threshold of the first one instead: 4/0 in the scenario
    of the specification, where 4/6 is expected. *)
Theorem gradeMutationUnit_summary config mutationResults (st : heap) gradedLocations last :
  result_map extractLocationInformation (locations config) = Ok gradedLocations →
  list.last (st !!! breakPoints config) = Some last →
  (∃ r, Copying.gradeMutationUnit config mutationResults st = (Ok r, st)
        ∧ output r = "Faults detected: "
                     +:+ ToString (mutantsDetected gradedLocations mutationResults)
                     +:+ "/" +:+ ToString (minimumMutantsDetected last))
  ∧ fst (InPlace.gradeMutationUnit Scenario.U Scenario.report Scenario.store)
    = Ok {| score := 5; max_score := Num 10; test_name := "U";
            output := "Faults detected: 4/0" |}.
Proof.
  intros Hlocs Hlast. split; [|reflexivity].
  rewrite (Copying_gradeMutationUnit_run _ _ _ _ Hlocs), Hlast. by eexists.
Qed.

(** The scenario of the specification, in the later revision: 4/6. *)
Lemma gradeMutationUnit_summary_witness :
  (∃ r, Copying.gradeMutationUnit Scenario.U Scenario.report Scenario.store
        = (Ok r, Scenario.store)
        ∧ output r = "Faults detected: "
                     +:+ ToString (mutantsDetected scenarioLocations Scenario.report)
                     +:+ "/" +:+ ToString (minimumMutantsDetected (Scenario.bp 6 10)))
  ∧ fst (InPlace.gradeMutationUnit Scenario.U Scenario.report Scenario.store)
    = Ok {| score := 5; max_score := Num 10; test_name := "U";
            output := "Faults detected: 4/0" |}.
Proof.
  apply (gradeMutationUnit_summary Scenario.U Scenario.report Scenario.store
           scenarioLocations (Scenario.bp 6 10)); reflexivity.
Defined.

Example scenario_later_revision :
  fst (Copying.gradeMutationUnit Scenario.U Scenario.report Scenario.store)
  = Ok {| score := 5; max_score := Num 10; test_name := "U";
          output := "Faults detected: 4/6" |}.
Proof. reflexivity. Qed.

(** The later revision never writes to the heap. *)
Lemma Copying_gradeMutationUnit_heap config mutationResults (st : heap) :
  (Copying.gradeMutationUnit config mutationResults st).2 = st.
Proof.
  destruct (result_map extractLocationInformation (locations config)) as [locs|e] eqn:Hlocs.
  - by rewrite (Copying_gradeMutationUnit_run _ _ _ _ Hlocs).
  - unfold Copying.gradeMutationUnit. by rewrite (gradeMutationUnit_with_throw _ _ _ _ _ Hlocs).
Qed.

(** [src/main.ts] leaves the array of the unit reversed, whenever the
    locations parse. *)
Lemma InPlace_gradeMutationUnit_heap config mutationResults (st : heap) gradedLocations :
  result_map extractLocationInformation (locations config) = Ok gradedLocations →
  (InPlace.gradeMutationUnit config mutationResults st).2
  = <[breakPoints config := reverse (st !!! breakPoints config)]> st.
Proof. intros Hlocs. by rewrite (InPlace_gradeMutationUnit_run _ _ _ _ Hlocs). Qed.

(** C7. Grading a unit leaves its stored breakpoints as they were: so it
    is in the later revision, for every unit, report and heap.
    [src/main.ts] leaves the table of the scenario in the order 6, 3, 0. *)
Theorem gradeMutationUnit_keeps_breakPoints :
  (∀ config mutationResults (st : heap),
     (Copying.gradeMutationUnit config mutationResults st).2 = st)
  ∧ Scenario.store !!! breakPoints Scenario.U
    = [Scenario.bp 0 0; Scenario.bp 3 5; Scenario.bp 6 10]
  ∧ (InPlace.gradeMutationUnit Scenario.U Scenario.report Scenario.store).2
      !!! breakPoints Scenario.U
    = [Scenario.bp 6 10; Scenario.bp 3 5; Scenario.bp 0 0].
Proof.
  split_and!; [apply Copying_gradeMutationUnit_heap|reflexivity..].
Qed.

(** ** The configuration validator *)

Section Validator.

Lemma validateBreakPoints_spec gradedUnitName lastBP bps :
  validateBreakPoints gradedUnitName lastBP bps
  = if decide (risesFrom lastBP bps) then Ok tt
    else Throw (InvalidBreakpointOrdering gradedUnitName).
Proof.
  revert lastBP. induction bps as [|bp bps IH]; intros lastBP;
    cbn [validateBreakPoints].
  - destruct (decide _) as [|Hno]; [done|]. destruct Hno. repeat constructor.
  - destruct (Z.leb_spec (minimumMutantsDetected bp) lastBP) as [Hle|Hlt].
    + destruct (decide _) as [Hs|]; [|done].
      apply Sorted_inv in Hs as [_ Hhd]. apply HdRel_inv in Hhd. lia.
    + rewrite IH.
      destruct (decide (risesFrom _ bps)) as [Hs|Hno],
               (decide (risesFrom lastBP (bp :: bps))) as [Hs'|Hno']; try done.
      * destruct Hno'. constructor; [done|]. by constructor.
      * destruct Hno. by eapply Sorted_inv.
Qed.

Lemma strictlyAscending_thresholds bps :
  strictlyAscending bps ↔ Sorted Z.lt (minimumMutantsDetected <$> bps).
Proof.
  unfold strictlyAscending. induction bps as [|a bps IH]; simpl.
  - split; constructor.
  - split; intros [Hs Hhd]%Sorted_inv; (constructor; [by apply IH|]);
      destruct bps; simpl in *; constructor; by apply HdRel_inv in Hhd.
Qed.

Lemma outOfOrder_cons a bps :
  outOfOrder (a :: bps)
  ↔ (∃ b, head bps = Some b ∧ ¬ threshold_lt a b) ∨ outOfOrder bps.
Proof.
  unfold outOfOrder, threshold_lt. split.
  - intros ([|i] & x & y & Hx & Hy & Hxy); simpl in *.
    + left. exists y. split; [by destruct bps|]. by simplify_eq.
    + right. by exists i, x, y.
  - intros [(b & Hb & Hab)|(i & x & y & Hx & Hy & Hxy)].
    + exists 0%nat, a, b. split_and!; [done| |done]. by destruct bps; simplify_eq/=.
    + by exists (S i), x, y.
Qed.

(** Strictly ascending is the same as no consecutive pair out of
    order. *)
Lemma strictlyAscending_outOfOrder bps :
  strictlyAscending bps ↔ ¬ outOfOrder bps.
Proof.
  unfold strictlyAscending. induction bps as [|a bps IH].
  - split; [|constructor]. intros _ (i & x & y & Hx & _). by destruct i.
  - rewrite outOfOrder_cons. split.
    + intros [Hs Hhd]%Sorted_inv [(b & Hb & Hab)|Hout].
      * destruct bps; simplify_eq/=. by apply HdRel_inv in Hhd.
      * by apply IH in Hs.
    + intros Hno. constructor.
      * apply IH. tauto.
      * destruct bps as [|b bps]; constructor.
        destruct (decide (threshold_lt a b)); [done|].
        exfalso. apply Hno. left. by exists b.
Qed.

Lemma not_strictlyAscending_outOfOrder bps :
  ¬ strictlyAscending bps → outOfOrder bps.
Proof.
  induction bps as [|a bps IH]; intros Hr; [destruct Hr; constructor|].
  apply outOfOrder_cons.
  destruct bps as [|b bps]; [destruct Hr; repeat constructor|].
  destruct (decide (threshold_lt a b)) as [Hab|Hab].
  - right. apply IH. intros Hs. apply Hr. constructor; [done|by constructor].
  - left. by exists b.
Qed.

(** With thresholds that are not negative, the start from -1 rejects
    nothing by itself. *)
Lemma risesFrom_nonneg bps :
  Forall (λ bp, 0 ≤ minimumMutantsDetected bp) bps →
  risesFrom (-1) bps ↔ strictlyAscending bps.
Proof.
  intros Hnonneg. rewrite strictlyAscending_thresholds. unfold risesFrom. split.
  - by intros [Hs _]%Sorted_inv.
  - intros Hs. constructor; [done|].
    destruct Hnonneg; simpl; constructor. lia.
Qed.

Lemma validateGradedUnits_accepts units (st : heap) :
  Forall (λ u, risesFrom (-1) (st !!! breakPoints u)) units →
  validateGradedUnits units st = (Ok tt, st).
Proof.
  induction 1 as [|u units Hu _ IH]; [done|]. simpl.
  unfold mbind, M_bind, readArray, lift.
  rewrite validateBreakPoints_spec. by destruct (decide _).
Qed.

Lemma validateGradedUnits_rejects units (st : heap) :
  Exists (λ u, ¬ risesFrom (-1) (st !!! breakPoints u)) units →
  ∃ u, u ∈ units ∧ ¬ risesFrom (-1) (st !!! breakPoints u)
       ∧ validateGradedUnits units st
         = (Throw (InvalidBreakpointOrdering (name u)), st).
Proof.
  induction units as [|u units IH]; [by intros ?%Exists_nil|].
  intros Hex. simpl. unfold mbind, M_bind, readArray, lift.
  rewrite validateBreakPoints_spec. destruct (decide _) as [Hu|Hu].
  - apply Exists_cons in Hex as [?|Hex]; [done|].
    destruct (IH Hex) as (v & Hv & Hbad & Hthrow).
    exists v. split_and!; [by apply list_elem_of_further|done..].
  - exists u. split_and!; [apply list_elem_of_here|done..].
Qed.

Lemma validateGradedUnits_empty before u after (st : heap) :
  st !!! breakPoints u = [] →
  validateGradedUnits (before ++ u :: after) st
  = validateGradedUnits (before ++ after) st.
Proof.
  intros Hu. induction before as [|v before IH]; simpl.
  - unfold mbind, M_bind, readArray, lift. by rewrite Hu.
  - unfold mbind, M_bind, readArray, lift.
    destruct (validateBreakPoints _ _ _); [|done]. apply IH.
Qed.

End Validator.

(** Whatever the thresholds: the validator throws, naming a unit whose
    thresholds do not rise strictly from above -1, when there is such a
    unit, and returns otherwise. It never writes to the heap. *)
Lemma validateConfig_spec config (st : heap) :
  ((∃ u, u ∈ gradedUnits config ∧ ¬ risesFrom (-1) (st !!! breakPoints u)) →
   ∃ u, u ∈ gradedUnits config ∧ ¬ risesFrom (-1) (st !!! breakPoints u)
        ∧ validateConfig config st = (Throw (InvalidBreakpointOrdering (name u)), st))
  ∧ ((∀ u, u ∈ gradedUnits config → risesFrom (-1) (st !!! breakPoints u)) →
     validateConfig config st = (Ok tt, st)).
Proof.
  unfold validateConfig. split.
  - intros Hex. apply validateGradedUnits_rejects, Exists_exists. naive_solver.
  - intros Hall. by apply validateGradedUnits_accepts, Forall_forall.
Qed.

(** C4, as stated, fails: the loop compares the first threshold of a
    unit with [lastBP = -1], so the table of the single breakpoint
    [{-1,5}] is rejected with the ordering error, though no unit of the
    configuration has a breakpoint whose threshold is not strictly above
    the one declared before it. *)
Lemma validateConfig_rejects_first_threshold :
  validateConfig Scenario.config negativeFirst
  = (Throw (InvalidBreakpointOrdering "U"), negativeFirst)
  ∧ (∀ u, u ∈ gradedUnits Scenario.config →
          ¬ outOfOrder (negativeFirst !!! breakPoints u))
  ∧ ¬ ((∃ gradedUnit, validateConfig Scenario.config negativeFirst
                      = (Throw (InvalidBreakpointOrdering gradedUnit), negativeFirst))
       ↔ ∃ u, u ∈ gradedUnits Scenario.config
              ∧ outOfOrder (negativeFirst !!! breakPoints u)).
Proof.
  assert (∀ u, u ∈ gradedUnits Scenario.config →
               ¬ outOfOrder (negativeFirst !!! breakPoints u)) as Hsorted.
  { intros u ->%list_elem_of_singleton.
    assert (negativeFirst !!! breakPoints Scenario.U = [Scenario.bp (-1) 5]) as ->
      by reflexivity.
    apply strictlyAscending_outOfOrder. repeat constructor. }
  split_and!; [reflexivity|done|].
  intros [Hthrows _]. destruct Hthrows as (u & Hu & Hout); [by eexists|].
  by apply (Hsorted u).
Qed.

(** C4, amended. On a configuration whose thresholds are not negative,
    [validateConfig] throws the ordering error exactly when some unit has
    a breakpoint whose threshold is not strictly above the one declared
    before it; the error names such a unit; otherwise the validator
    returns. Only thresholds are compared: the points play no role. *)
Theorem validateConfig_ordering config (st : heap) :
  Forall (λ u, Forall (λ bp, 0 ≤ minimumMutantsDetected bp) (st !!! breakPoints u))
         (gradedUnits config) →
  ((∃ gradedUnit, validateConfig config st
                  = (Throw (InvalidBreakpointOrdering gradedUnit), st))
   ↔ ∃ u, u ∈ gradedUnits config ∧ outOfOrder (st !!! breakPoints u))
  ∧ ((∃ u, u ∈ gradedUnits config ∧ outOfOrder (st !!! breakPoints u)) →
     ∃ u, u ∈ gradedUnits config ∧ outOfOrder (st !!! breakPoints u)
          ∧ validateConfig config st
            = (Throw (InvalidBreakpointOrdering (name u)), st))
  ∧ ((¬ ∃ u, u ∈ gradedUnits config ∧ outOfOrder (st !!! breakPoints u)) →
     validateConfig config st = (Ok tt, st)).
Proof.
  intros Hnonneg. rewrite Forall_forall in Hnonneg.
  assert (∀ u, u ∈ gradedUnits config →
               ¬ risesFrom (-1) (st !!! breakPoints u)
               ↔ outOfOrder (st !!! breakPoints u)) as Hiff.
  { intros u Hu. split.
    - intros Hbad. apply not_strictlyAscending_outOfOrder.
      by rewrite <- risesFrom_nonneg by auto.
    - intros Hout Hr. apply risesFrom_nonneg in Hr; [|by auto].
      by apply strictlyAscending_outOfOrder in Hr. }
  destruct (validateConfig_spec config st) as [Hthrow Hok].
  assert ((∃ u, u ∈ gradedUnits config ∧ outOfOrder (st !!! breakPoints u)) →
          ∃ u, u ∈ gradedUnits config ∧ outOfOrder (st !!! breakPoints u)
               ∧ validateConfig config st
                 = (Throw (InvalidBreakpointOrdering (name u)), st)) as Hnamed.
  { intros (u & Hu & Hout). destruct Hthrow as (v & Hv & Hbad & Hv').
    - exists u. split; [done|]. by apply Hiff.
    - exists v. split_and!; [done| |done]. by apply Hiff. }
  assert ((¬ ∃ u, u ∈ gradedUnits config ∧ outOfOrder (st !!! breakPoints u)) →
          validateConfig config st = (Ok tt, st)) as Hreturns.
  { intros Hnone. apply Hok. intros u Hu.
    destruct (decide (risesFrom (-1) (st !!! breakPoints u))) as [|Hbad]; [done|].
    destruct Hnone. exists u. split; [done|]. by apply Hiff. }
  split_and!; [|done..]. split.
  - intros [nm Hnm].
    destruct (decide (Exists (λ u, ¬ strictlyAscending (st !!! breakPoints u))
                             (gradedUnits config))) as [Hex|Hex].
    + apply Exists_exists in Hex as (u & Hu & Hbad). exists u. split; [done|].
      apply Hiff; [done|]. by rewrite risesFrom_nonneg by auto.
    + rewrite Hreturns in Hnm; [done|]. intros (u & Hu & Hout). apply Hex.
      apply Exists_exists. exists u. split; [done|].
      by intros Hs%strictlyAscending_outOfOrder.
  - intros Hex. destruct (Hnamed Hex) as (u & _ & _ & Hu). eauto.
Qed.

Lemma validateConfig_ordering_witness :
  ((∃ gradedUnit, validateConfig Scenario.config decreasingPoints
                  = (Throw (InvalidBreakpointOrdering gradedUnit), decreasingPoints))
   ↔ ∃ u, u ∈ gradedUnits Scenario.config
          ∧ outOfOrder (decreasingPoints !!! breakPoints u))
  ∧ ((∃ u, u ∈ gradedUnits Scenario.config
           ∧ outOfOrder (decreasingPoints !!! breakPoints u)) →
     ∃ u, u ∈ gradedUnits Scenario.config
          ∧ outOfOrder (decreasingPoints !!! breakPoints u)
          ∧ validateConfig Scenario.config decreasingPoints
            = (Throw (InvalidBreakpointOrdering (name u)), decreasingPoints))
  ∧ ((¬ ∃ u, u ∈ gradedUnits Scenario.config
             ∧ outOfOrder (decreasingPoints !!! breakPoints u)) →
     validateConfig Scenario.config decreasingPoints = (Ok tt, decreasingPoints)).
Proof.
  apply (validateConfig_ordering Scenario.config decreasingPoints).
  apply (bool_decide_unpack _). vm_compute. exact I.
Defined.

(** The tables of the specification: points that decrease are accepted,
    a repeated threshold and a lower threshold are rejected. *)
Example validateConfig_decreasing_points :
  validateConfig Scenario.config decreasingPoints = (Ok tt, decreasingPoints).
Proof. reflexivity. Qed.

Example validateConfig_duplicate x y :
  (validateConfig Scenario.config
     {[ 1%positive := [Scenario.bp 5 x; Scenario.bp 5 y] ]}).1
  = Throw (InvalidBreakpointOrdering "U").
Proof. reflexivity. Qed.

Example validateConfig_lower x y :
  (validateConfig Scenario.config
     {[ 1%positive := [Scenario.bp 5 x; Scenario.bp 2 y] ]}).1
  = Throw (InvalidBreakpointOrdering "U").
Proof. reflexivity. Qed.

(** The scan starts from [lastBP = -1]: a first threshold of -1 or less,
    which the data model of the specification excludes, is rejected as
    well, with no pair of breakpoints out of order. *)
Example validateConfig_negative_first :
  (validateConfig Scenario.config {[ 1%positive := [Scenario.bp (-1) 5] ]}).1
  = Throw (InvalidBreakpointOrdering "U")
  ∧ ¬ outOfOrder [Scenario.bp (-1) 5].
Proof.
  split; [reflexivity|]. apply strictlyAscending_outOfOrder. repeat constructor.
Qed.

(** ** A unit without breakpoints *)

(** C10. The validator takes no notice of a unit whose table is empty, so
    it accepts it; [gradeMutationUnit] then takes the maximum of no
    points, [-Infinity], and throws when it reads the last element of the
    table. That element exists exactly when the table is not empty. *)
Theorem gradeMutationUnit_empty_table
    before config after mutationResults (st : heap) gradedLocations :
  st !!! breakPoints config = [] →
  result_map extractLocationInformation (locations config) = Ok gradedLocations →
  validateGradedUnits (before ++ config :: after) st
  = validateGradedUnits (before ++ after) st
  ∧ validateConfig {| gradedUnits := [config]; submissionFiles := [] |} st = (Ok tt, st)
  ∧ Math_max (pointsToAward <$> st !!! breakPoints config) = NegInfinity
  ∧ (InPlace.gradeMutationUnit config mutationResults st).1 = Throw TypeError
  ∧ (Copying.gradeMutationUnit config mutationResults st).1 = Throw TypeError
  ∧ ∀ bps : list BreakPoint,
      is_Some (index bps (Z.of_nat (length bps) - 1)) ↔ bps ≠ [].
Proof.
  intros Hempty Hlocs. split_and!.
  - by apply validateGradedUnits_empty.
  - unfold validateConfig. simpl. unfold mbind, M_bind, readArray, lift.
    by rewrite Hempty.
  - by rewrite Hempty.
  - rewrite (InPlace_gradeMutationUnit_run _ _ _ _ Hlocs). by rewrite Hempty.
  - rewrite (Copying_gradeMutationUnit_run _ _ _ _ Hlocs). by rewrite Hempty.
  - intros bps. rewrite index_last. split.
    + intros [? Hlast] ->. done.
    + intros Hne. destruct (last_is_Some' bps Hne) as [x ->]. by eexists.
Qed.

Lemma gradeMutationUnit_empty_table_witness :
  validateGradedUnits ([] ++ Scenario.U :: []) emptyTable
  = validateGradedUnits ([] ++ []) emptyTable
  ∧ validateConfig {| gradedUnits := [Scenario.U]; submissionFiles := [] |} emptyTable
    = (Ok tt, emptyTable)
  ∧ Math_max (pointsToAward <$> emptyTable !!! breakPoints Scenario.U) = NegInfinity
  ∧ (InPlace.gradeMutationUnit Scenario.U Scenario.report emptyTable).1 = Throw TypeError
  ∧ (Copying.gradeMutationUnit Scenario.U Scenario.report emptyTable).1 = Throw TypeError
  ∧ ∀ bps : list BreakPoint,
      is_Some (index bps (Z.of_nat (length bps) - 1)) ↔ bps ≠ [].
Proof.
  apply (gradeMutationUnit_empty_table [] Scenario.U [] Scenario.report emptyTable
           scenarioLocations); reflexivity.
Defined.

(** With locations that parse, a revision returns a result exactly when
    the table of the unit is not empty. *)
Lemma gradeMutationUnit_returns_iff config mutationResults (st : heap) gradedLocations :
  result_map extractLocationInformation (locations config) = Ok gradedLocations →
  ((∃ r, (InPlace.gradeMutationUnit config mutationResults st).1 = Ok r)
   ↔ st !!! breakPoints config ≠ [])
  ∧ ((∃ r, (Copying.gradeMutationUnit config mutationResults st).1 = Ok r)
     ↔ st !!! breakPoints config ≠ []).
Proof.
  intros Hlocs.
  rewrite (InPlace_gradeMutationUnit_run _ _ _ _ Hlocs),
    (Copying_gradeMutationUnit_run _ _ _ _ Hlocs).
  destruct (st !!! breakPoints config) as [|x bps _] using rev_ind.
  - split; (split; [by intros [r [=]]|done]).
  - rewrite last_snoc. destruct bps; simpl; split; (split; [done|eauto]).
Qed.

(** ** Monotonicity of the score *)

Section Monotone.

Lemma scoreFor_bound bps d m :
  0 ≤ m →
  (∀ bp, bp ∈ bps → pointsToAward bp ≤ m) →
  scoreFor bps d ≤ m.
Proof.
  intros Hm. induction bps as [|x bps IH] using rev_ind; intros Hall; [done|].
  rewrite scoreFor_snoc. destruct (minimumMutantsDetected x <=? d).
  - apply Hall. set_solver.
  - apply IH. intros bp Hbp. apply Hall. set_solver.
Qed.

Lemma scoreFor_monotone bps d1 d2 :
  pointsAscending bps →
  Forall (λ bp, 0 ≤ pointsToAward bp) bps →
  d1 ≤ d2 →
  scoreFor bps d1 ≤ scoreFor bps d2.
Proof.
  intros Hs Hnonneg Hd. induction bps as [|x bps IH] using rev_ind; [done|].
  apply Sorted_StronglySorted in Hs; [|apply _].
  apply StronglySorted_app in Hs as (Hbelow & Hs & _).
  apply Forall_app in Hnonneg as [Hnonneg Hx%Forall_inv].
  rewrite !scoreFor_snoc.
  destruct (Z.leb_spec (minimumMutantsDetected x) d1),
           (Z.leb_spec (minimumMutantsDetected x) d2); try lia.
  - apply scoreFor_bound; [done|].
    intros bp Hbp. apply Hbelow; [done|]. set_solver.
  - apply IH; [|done]. by apply StronglySorted_Sorted.
Qed.

End Monotone.

(** C3, as stated, fails: the table [{0,10},{5,5}] passes the validator,
    and no kill scores 10 where five kills score 5, in both revisions. *)
Lemma score_not_monotone :
  validateConfig Scenario.config decreasingPoints = (Ok tt, decreasingPoints)
  ∧ Scenario.U ∈ gradedUnits Scenario.config
  ∧ mutantsDetected scenarioLocations noneKilled
    ≤ mutantsDetected scenarioLocations fiveKilled
  ∧ ∃ a1 a2 b1 b2,
      (InPlace.gradeMutationUnit Scenario.U noneKilled decreasingPoints).1 = Ok a1
      ∧ (InPlace.gradeMutationUnit Scenario.U fiveKilled decreasingPoints).1 = Ok a2
      ∧ (Copying.gradeMutationUnit Scenario.U noneKilled decreasingPoints).1 = Ok b1
      ∧ (Copying.gradeMutationUnit Scenario.U fiveKilled decreasingPoints).1 = Ok b2
      ∧ ¬ score a1 ≤ score a2
      ∧ ¬ score b1 ≤ score b2.
Proof.
  split_and!; [reflexivity|apply list_elem_of_here|by vm_compute|].
  do 4 eexists. split_and!; [reflexivity..| |]; by vm_compute.
Qed.

(** C3, amended. For a unit of a validated configuration whose points
    are not negative and never decrease in declared order, more kills
    never score less, in either revision. *)
Theorem gradeMutationUnit_monotone
    config unit report1 report2 (st : heap) gradedLocations :
  validateConfig config st = (Ok tt, st) →
  unit ∈ gradedUnits config →
  result_map extractLocationInformation (locations unit) = Ok gradedLocations →
  st !!! breakPoints unit ≠ [] →
  pointsAscending (st !!! breakPoints unit) →
  Forall (λ bp, 0 ≤ pointsToAward bp) (st !!! breakPoints unit) →
  mutantsDetected gradedLocations report1 ≤ mutantsDetected gradedLocations report2 →
  ∃ a1 a2 b1 b2,
    (InPlace.gradeMutationUnit unit report1 st).1 = Ok a1
    ∧ (InPlace.gradeMutationUnit unit report2 st).1 = Ok a2
    ∧ (Copying.gradeMutationUnit unit report1 st).1 = Ok b1
    ∧ (Copying.gradeMutationUnit unit report2 st).1 = Ok b2
    ∧ score a1 ≤ score a2
    ∧ score b1 ≤ score b2.
Proof.
  intros _ _ Hlocs Hne Hpoints Hnonneg Hd.
  destruct (gradeMutationUnit_returns _ report1 _ _ Hlocs Hne)
    as (? & ? & a1 & b1 & _ & _ & [= <-] & [= <-] & -> & ->).
  destruct (gradeMutationUnit_returns _ report2 _ _ Hlocs Hne)
    as (? & ? & a2 & b2 & _ & _ & [= <-] & [= <-] & -> & ->).
  do 4 eexists. split_and!; [done..| |]; by apply scoreFor_monotone.
Qed.

Lemma gradeMutationUnit_monotone_witness :
  ∃ a1 a2 b1 b2,
    (InPlace.gradeMutationUnit Scenario.U noneKilled Scenario.store).1 = Ok a1
    ∧ (InPlace.gradeMutationUnit Scenario.U fiveKilled Scenario.store).1 = Ok a2
    ∧ (Copying.gradeMutationUnit Scenario.U noneKilled Scenario.store).1 = Ok b1
    ∧ (Copying.gradeMutationUnit Scenario.U fiveKilled Scenario.store).1 = Ok b2
    ∧ score a1 ≤ score a2
    ∧ score b1 ≤ score b2.
Proof.
  apply (gradeMutationUnit_monotone Scenario.config Scenario.U noneKilled fiveKilled
           Scenario.store scenarioLocations).
  - reflexivity.
  - apply list_elem_of_here.
  - reflexivity.
  - vm_compute. discriminate.
  - apply (bool_decide_unpack _). vm_compute. exact I.
  - apply (bool_decide_unpack _). vm_compute. exact I.
  - vm_compute. discriminate.
Defined.

(** ** The kill count *)

Section KillCount.

Lemma parseInt_finite s : Str.parseInt s ≠ NegInfinity.
Proof. unfold Str.parseInt. repeat case_match; done. Qed.

Lemma parseInt_part_finite part : Str.parseInt_part part ≠ NegInfinity.
Proof. destruct part; [apply parseInt_finite|done]. Qed.

Lemma extractLocationInformation_parsed location range :
  extractLocationInformation location = Ok range → parsed range.
Proof.
  unfold extractLocationInformation, parsed. intros Hrange.
  repeat case_match; simplify_eq; simpl;
    auto using parseInt_finite, parseInt_part_finite.
Qed.

Lemma result_map_Forall2 {A B} (f : A → result B) xs ys :
  result_map f xs = Ok ys ↔ Forall2 (λ x y, f x = Ok y) xs ys.
Proof.
  split.
  - revert ys. induction xs as [|x xs IH]; intros ys; simpl.
    + intros [= <-]. constructor.
    + destruct (f x) as [y|e] eqn:Hx; [|done]. simpl.
      destruct (result_map f xs) as [ys'|e]; [|done]. simpl.
      intros [= <-]. constructor; [done|]. by apply IH.
  - induction 1 as [|x y xs ys Hx _ IH]; simpl; [done|].
    by rewrite Hx, IH.
Qed.

Lemma result_map_parsed locations gradedLocations :
  result_map extractLocationInformation locations = Ok gradedLocations →
  Forall parsed gradedLocations.
Proof.
  intros Hall%result_map_Forall2.
  induction Hall; constructor; eauto using extractLocationInformation_parsed.
Qed.

Lemma find_Exists {A} (p : A → bool) xs :
  List.find p xs ≠ None ↔ Exists (λ x, p x = true) xs.
Proof.
  induction xs as [|x xs IH]; simpl.
  - split; [done|by intros ?%Exists_nil].
  - rewrite Exists_cons. destruct (p x) eqn:Hx.
    + split; [by left|done].
    + rewrite IH. split; [by right|]. by intros [?|?].
Qed.

Context (gradedLocations : list LocationRange).
Hypothesis Hparsed : Forall parsed gradedLocations.

Lemma mutatedFileContainsAGradedUnit_spec file :
  mutatedFileContainsAGradedUnit gradedLocations file = true
  ↔ Exists (λ range, isSubstring (fileName range) file) gradedLocations.
Proof.
  unfold mutatedFileContainsAGradedUnit.
  rewrite bool_decide_eq_true, find_Exists.
  split; intros Hex; (eapply Exists_impl; [done|]);
    intros range; by apply includes_spec.
Qed.

Lemma number_leb_within range n :
  parsed range →
  number_leb (startLine range) (Num n) && number_geb (endLine range) (Num n) = true
  ↔ within range n.
Proof.
  unfold parsed, within, number_geb. intros [Hs He].
  destruct (startLine range), (endLine range); simpl; try done.
  - rewrite andb_true_iff, !Z.leb_le. done.
  - by rewrite andb_false_r.
Qed.

Lemma mutantContainsThisGradedUnit_spec mutant :
  mutantContainsThisGradedUnit gradedLocations mutant = true
  ↔ Exists (λ range, within range (line mutant)) gradedLocations.
Proof.
  unfold mutantContainsThisGradedUnit.
  rewrite bool_decide_eq_true, find_Exists.
  generalize Hparsed. generalize gradedLocations.
  induction 1 as [|range ranges Hrange _ IH].
  - by rewrite !Exists_nil.
  - by rewrite !Exists_cons, IH, number_leb_within.
Qed.

End KillCount.

Section Counting.

Lemma filter_bool {A} (p : A → bool) (P : A → Prop) `{∀ x, Decision (P x)} xs :
  (∀ x, p x = true ↔ P x) → List.filter p xs = filter P xs.
Proof.
  intros Hp. induction xs as [|x xs IH]; simpl; [done|]. rewrite filter_cons.
  destruct (p x) eqn:Hx.
  - rewrite decide_True by by apply Hp. by rewrite IH.
  - rewrite decide_False; [done|]. rewrite <- Hp. congruence.
Qed.

Lemma killed_fold mutants acc :
  fold_left
    (λ mutantsFoundThisFile mutant,
       if String.eqb (status mutant) "Killed" then mutantsFoundThisFile + 1
       else mutantsFoundThisFile)
    mutants acc
  = acc + Z.of_nat (length (filter (λ mutant, status mutant = "Killed") mutants)).
Proof.
  revert acc. induction mutants as [|mutant mutants IH]; intros acc; simpl; [lia|].
  rewrite IH, filter_cons.
  destruct (String.eqb_spec (status mutant) "Killed").
  - rewrite decide_True by done. simpl. lia.
  - by rewrite decide_False.
Qed.

Context (gradedLocations : list LocationRange).
Hypothesis Hparsed : Forall parsed gradedLocations.

(** The contribution of one file of the report. *)
Lemma killedIn_file file mutants :
  (if mutatedFileContainsAGradedUnit gradedLocations file
   then killedIn (List.filter (mutantContainsThisGradedUnit gradedLocations) mutants)
   else 0)
  = Z.of_nat (length (filter (counts gradedLocations file) mutants)).
Proof.
  destruct (mutatedFileContainsAGradedUnit gradedLocations file) eqn:Hfile.
  - apply mutatedFileContainsAGradedUnit_spec in Hfile.
    unfold killedIn. rewrite killed_fold.
    rewrite (filter_bool _ (λ mutant,
               Exists (λ range, within range (line mutant)) gradedLocations))
      by (intros; by apply mutantContainsThisGradedUnit_spec).
    rewrite list_filter_filter, Z.add_0_l. do 2 f_equal.
    apply list_filter_iff. intros mutant. unfold counts. tauto.
  - assert (filter (counts gradedLocations file) mutants = []) as ->; [|done].
    induction mutants as [|mutant mutants IH]; [done|].
    rewrite filter_cons_False; [done|]. intros [Hex _].
    apply mutatedFileContainsAGradedUnit_spec in Hex. congruence.
Qed.

Lemma mutantsDetected_entries (m : gmap string (list MutantResult)) entries acc :
  Forall (λ entry, m !!! entry.1 = entry.2) entries →
  fold_left
    (λ mutantsFoundSoFar file,
       mutantsFoundSoFar +
       killedIn (List.filter (mutantContainsThisGradedUnit gradedLocations)
                             (m !!! file)))
    (List.filter (mutatedFileContainsAGradedUnit gradedLocations) entries.*1)
    acc
  = acc + Z.of_nat (sum_list
      ((λ entry, length (filter (counts gradedLocations entry.1) entry.2))
         <$> entries)).
Proof.
  intros Hentries. revert acc.
  induction Hentries as [|[file mutants] entries Hentry _ IH]; intros acc; csimpl.
  - lia.
  - pose proof (killedIn_file file mutants) as Hfile. simpl in Hentry.
    destruct (mutatedFileContainsAGradedUnit gradedLocations file); csimpl.
    + rewrite IH, Hentry. lia.
    + rewrite IH. lia.
Qed.

Lemma mutantsDetected_counted mutationResults :
  mutantsDetected gradedLocations mutationResults
  = Z.of_nat (countedMutants gradedLocations mutationResults).
Proof.
  unfold mutantsDetected, countedMutants.
  rewrite mutantsDetected_entries; [lia|].
  apply Forall_forall. intros [file mutants] Hin%elem_of_map_to_list.
  by apply lookup_total_correct.
Qed.

End Counting.

(** C2. The kill count of [gradeMutationUnit], the number that decides
    the score and is printed in the summary, is the number of mutants of
    the report whose file path contains the file name of one of the
    parsed ranges of the unit, whose start line lies within one of the
    ranges (whichever), and whose status is ["Killed"]. *)
Theorem gradeMutationUnit_detected config mutationResults (st : heap) gradedLocations :
  result_map extractLocationInformation (locations config) = Ok gradedLocations →
  st !!! breakPoints config ≠ [] →
  let bps := st !!! breakPoints config in
  let detected := Z.of_nat (countedMutants gradedLocations mutationResults) in
  mutantsDetected gradedLocations mutationResults = detected
  ∧ ∃ first last r1 r2 st1,
      head bps = Some first ∧ list.last bps = Some last
      ∧ InPlace.gradeMutationUnit config mutationResults st = (Ok r1, st1)
      ∧ Copying.gradeMutationUnit config mutationResults st = (Ok r2, st)
      ∧ score r1 = scoreFor bps detected
      ∧ score r2 = scoreFor bps detected
      ∧ output r1 = summary detected (minimumMutantsDetected first)
      ∧ output r2 = summary detected (minimumMutantsDetected last).
Proof.
  intros Hlocs Hne bps detected.
  assert (mutantsDetected gradedLocations mutationResults = detected) as Hcount.
  { apply mutantsDetected_counted. by eapply result_map_parsed. }
  split; [done|].
  destruct (gradeMutationUnit_returns _ mutationResults _ _ Hlocs Hne)
    as (first & last & r1 & r2 & Hfirst & Hlast & [= <-] & [= <-] & Hr1 & Hr2).
  rewrite Hcount in Hr1, Hr2.
  exists first, last. do 3 eexists. by split_and!.
Qed.

Lemma gradeMutationUnit_detected_witness :
  mutantsDetected scenarioLocations Scenario.report
  = Z.of_nat (countedMutants scenarioLocations Scenario.report)
  ∧ ∃ first last r1 r2 st1,
      head (Scenario.store !!! 1%positive) = Some first
      ∧ list.last (Scenario.store !!! 1%positive) = Some last
      ∧ InPlace.gradeMutationUnit Scenario.U Scenario.report Scenario.store = (Ok r1, st1)
      ∧ Copying.gradeMutationUnit Scenario.U Scenario.report Scenario.store
        = (Ok r2, Scenario.store)
      ∧ score r1 = scoreFor (Scenario.store !!! 1%positive)
                     (Z.of_nat (countedMutants scenarioLocations Scenario.report))
      ∧ score r2 = scoreFor (Scenario.store !!! 1%positive)
                     (Z.of_nat (countedMutants scenarioLocations Scenario.report))
      ∧ output r1 = summary (Z.of_nat (countedMutants scenarioLocations Scenario.report))
                      (minimumMutantsDetected first)
      ∧ output r2 = summary (Z.of_nat (countedMutants scenarioLocations Scenario.report))
                      (minimumMutantsDetected last).
Proof.
  apply (gradeMutationUnit_detected Scenario.U Scenario.report Scenario.store
           scenarioLocations).
  - reflexivity.
  - vm_compute. discriminate.
Defined.

(** The boundary and status cases of the specification. *)
Example line_20_in_10_20 :
  mutantsDetected [{| fileName := "foo.ts"; startLine := Num 10; endLine := Num 20 |}]
    {| files := {[ "src/foo.ts" := [Scenario.mutant "Killed" 20] ]} |} = 1
  ∧ mutantsDetected [{| fileName := "foo.ts"; startLine := Num 10; endLine := Num 19 |}]
      {| files := {[ "src/foo.ts" := [Scenario.mutant "Killed" 20] ]} |} = 0.
Proof. split; reflexivity. Qed.

Example killed_and_survived :
  mutantsDetected scenarioLocations
    {| files := {[ "src/foo.ts" :=
         [Scenario.mutant "Killed" 3; Scenario.mutant "Survived" 3] ]} |} = 1.
Proof. reflexivity. Qed.

(** The line range need not belong to the file name that matched. *)
Example range_of_another_file :
  mutantsDetected
    [{| fileName := "foo.ts"; startLine := Num 1; endLine := Num 5 |};
     {| fileName := "bar.ts"; startLine := Num 40; endLine := Num 50 |}]
    {| files := {[ "src/foo.ts" := [Scenario.mutant "Killed" 45] ]} |} = 1.
Proof. reflexivity. Qed.

(** ** The report aggregator *)

Section Aggregator.
Context (results : MutationTestResult).

(** Mapping a computation that leaves the heap alone: each element is
    computed from the heap of the start. *)
Lemma M_map_pure {A B} (f : A → M B) xs (st : heap) :
  (∀ x, (f x st).2 = st) →
  M_map f xs st = (result_map (λ x, (f x st).1) xs, st).
Proof.
  intros Hpure. induction xs as [|x xs IH]; simpl; [done|].
  unfold mbind, M_bind. specialize (Hpure x).
  destruct (f x st) as [[y|e] st'] eqn:Hx; simpl in *; subst; [|done].
  rewrite IH. by destruct (result_map _ xs).
Qed.

Lemma Copying_gradeStrykerResults_run schema (st : heap) :
  Copying.gradeStrykerResults schema results st
  = (result_bind
       (result_map (λ u, (Copying.gradeMutationUnit u results st).1)
                   (gradedUnits schema))
       (λ testResults, Ok (graderOutput testResults)),
     st).
Proof.
  unfold Copying.gradeStrykerResults, gradeStrykerResults_with, mbind, M_bind.
  fold Copying.gradeMutationUnit.
  rewrite (M_map_pure (λ u, Copying.gradeMutationUnit u results))
    by (intros; apply Copying_gradeMutationUnit_heap).
  by destruct (result_map _ _).
Qed.

(** The result of [src/main.ts] for a unit depends on the heap through
    the array of the unit only, and the call writes to that array only. *)
Lemma InPlace_gradeMutationUnit_frame config (st st' : heap) :
  st' !!! breakPoints config = st !!! breakPoints config →
  (InPlace.gradeMutationUnit config results st').1
  = (InPlace.gradeMutationUnit config results st).1.
Proof.
  intros Hsame.
  destruct (result_map extractLocationInformation (locations config))
    as [locs|e] eqn:Hlocs.
  - rewrite !(InPlace_gradeMutationUnit_run _ _ _ _ Hlocs). simpl. by rewrite Hsame.
  - unfold InPlace.gradeMutationUnit.
    by rewrite !(gradeMutationUnit_with_throw _ _ _ _ _ Hlocs).
Qed.

Lemma InPlace_gradeMutationUnit_other config (st : heap) r :
  r ≠ breakPoints config →
  (InPlace.gradeMutationUnit config results st).2 !!! r = st !!! r.
Proof.
  intros Hr.
  destruct (result_map extractLocationInformation (locations config))
    as [locs|e] eqn:Hlocs.
  - rewrite (InPlace_gradeMutationUnit_run _ _ _ _ Hlocs). simpl.
    by rewrite lookup_total_insert_ne.
  - unfold InPlace.gradeMutationUnit.
    by rewrite (gradeMutationUnit_with_throw _ _ _ _ _ Hlocs).
Qed.

Lemma InPlace_M_map_separate units (st st' : heap) :
  NoDup (breakPoints <$> units) →
  (∀ u, u ∈ units → st' !!! breakPoints u = st !!! breakPoints u) →
  (M_map (λ u, InPlace.gradeMutationUnit u results) units st').1
  = result_map (λ u, (InPlace.gradeMutationUnit u results st).1) units.
Proof.
  revert st'. induction units as [|u units IH]; intros st' Hnodup Hsame; [done|].
  rewrite fmap_cons in Hnodup. apply NoDup_cons in Hnodup as [Hu Hnodup].
  simpl. unfold mbind, M_bind.
  rewrite <- (InPlace_gradeMutationUnit_frame u st st')
    by (apply Hsame, list_elem_of_here).
  pose proof (λ r, InPlace_gradeMutationUnit_other u st' r) as Hother.
  destruct (InPlace.gradeMutationUnit u results st') as [[y|e] st''];
    simpl in *; [|done].
  rewrite <- (IH st'' Hnodup).
  - by destruct (M_map _ units st'') as [[ys|e] ?].
  - intros v Hv. rewrite Hother.
    + by apply Hsame, list_elem_of_further.
    + intros Heq. apply Hu. rewrite <- Heq. by apply list_elem_of_fmap_2.
Qed.

(** When no two units share an array, [src/main.ts] too grades every
    unit as if it were alone. *)
Lemma InPlace_gradeStrykerResults_separate schema (st : heap) :
  NoDup (breakPoints <$> gradedUnits schema) →
  (InPlace.gradeStrykerResults schema results st).1
  = result_bind
      (result_map (λ u, (InPlace.gradeMutationUnit u results st).1)
                  (gradedUnits schema))
      (λ testResults, Ok (graderOutput testResults)).
Proof.
  intros Hnodup.
  pose proof (InPlace_M_map_separate (gradedUnits schema) st st Hnodup) as Hmap.
  unfold InPlace.gradeStrykerResults, gradeStrykerResults_with, mbind, M_bind.
  fold InPlace.gradeMutationUnit. rewrite <- Hmap by done.
  by destruct (M_map _ _ st) as [[ys|e] ?].
Qed.

End Aggregator.

(** C9. When every unit has a breakpoint and locations that parse, the
    later revision returns one [TestResult] for each unit, in the order
    of the configuration, each the result of [gradeMutationUnit] on that
    unit alone; the heap is as before. In [src/main.ts] a unit that
    shares its array with an earlier unit is graded on the array that the
    earlier call left reversed: [V] of the scenario scores 0, and 5 when
    graded alone. *)
Theorem gradeStrykerResults_per_unit schema results (st : heap) :
  Forall (λ u, st !!! breakPoints u ≠ []
               ∧ ∃ locs, result_map extractLocationInformation (locations u) = Ok locs)
         (gradedUnits schema) →
  (∃ testResults,
     Copying.gradeStrykerResults schema results st = (Ok (graderOutput testResults), st)
     ∧ Forall2 (λ u t, Copying.gradeMutationUnit u results st = (Ok t, st))
               (gradedUnits schema) testResults)
  ∧ validateConfig Scenario.shared Scenario.store = (Ok tt, Scenario.store)
  ∧ (InPlace.gradeStrykerResults Scenario.shared Scenario.report Scenario.store).1
    = Ok (graderOutput sharedTests)
  ∧ (InPlace.gradeMutationUnit Scenario.V Scenario.report Scenario.store).1
    = Ok {| score := 5; max_score := Num 10; test_name := "V";
            output := "Faults detected: 4/0" |}.
Proof.
  intros Hunits. split; [|split_and!; reflexivity].
  rewrite Copying_gradeStrykerResults_run.
  assert (∃ testResults,
            Forall2 (λ u t, Copying.gradeMutationUnit u results st = (Ok t, st))
                    (gradedUnits schema) testResults) as [testResults Hall].
  { induction Hunits as [|u units [Hne [locs Hlocs]] _ [ts IH]]; [by exists []|].
    destruct (gradeMutationUnit_returns u results st locs Hlocs Hne)
      as (_ & _ & _ & t & _ & _ & _ & _ & _ & Ht).
    exists (t :: ts). by constructor. }
  exists testResults. split; [|done].
  assert (result_map (λ u, (Copying.gradeMutationUnit u results st).1)
                     (gradedUnits schema) = Ok testResults) as ->; [|done].
  apply result_map_Forall2. eapply Forall2_impl; [done|].
  intros u t Ht. by rewrite Ht.
Qed.

Lemma gradeStrykerResults_per_unit_witness :
  (∃ testResults,
     Copying.gradeStrykerResults Scenario.shared Scenario.report Scenario.store
     = (Ok (graderOutput testResults), Scenario.store)
     ∧ Forall2 (λ u t, Copying.gradeMutationUnit u Scenario.report Scenario.store
                       = (Ok t, Scenario.store))
               (gradedUnits Scenario.shared) testResults)
  ∧ validateConfig Scenario.shared Scenario.store = (Ok tt, Scenario.store)
  ∧ (InPlace.gradeStrykerResults Scenario.shared Scenario.report Scenario.store).1
    = Ok (graderOutput sharedTests)
  ∧ (InPlace.gradeMutationUnit Scenario.V Scenario.report Scenario.store).1
    = Ok {| score := 5; max_score := Num 10; test_name := "V";
            output := "Faults detected: 4/0" |}.
Proof.
  apply (gradeStrykerResults_per_unit Scenario.shared Scenario.report Scenario.store).
  repeat constructor; (by vm_compute) || (by exists scenarioLocations).
Defined.

(** Whether a failing unit stops the later revision: the first exception
    of a unit is the exception of the whole run. *)
Lemma Copying_gradeStrykerResults_throw schema results (st : heap) before u after e :
  gradedUnits schema = before ++ u :: after →
  Forall (λ v, ∃ t, (Copying.gradeMutationUnit v results st).1 = Ok t) before →
  (Copying.gradeMutationUnit u results st).1 = Throw e →
  Copying.gradeStrykerResults schema results st = (Throw e, st).
Proof.
  intros Hunits Hbefore Hu. rewrite Copying_gradeStrykerResults_run, Hunits.
  assert (result_map (λ v, (Copying.gradeMutationUnit v results st).1)
                     (before ++ u :: after) = Throw e) as ->; [|done].
  clear Hunits. induction Hbefore as [|v before [t Hv] _ IH]; simpl.
  - by rewrite Hu.
  - by rewrite Hv, IH.
Qed.

(** * Further properties of the grading functions *)

(** ** The location parser: every outcome *)

(** X1. What the parser does depends on the number of [:] alone: none,
    and reading [parts[1].includes] throws a [TypeError]; one, and it
    returns a range; more, and it throws the exception for columns. *)
Theorem extractLocationInformation_outcomes location :
  (extractLocationInformation location = Throw UnsupportedLocationFormat
   ↔ (1 < Str.occurrences ":" location)%nat)
  ∧ (extractLocationInformation location = Throw TypeError
     ↔ Str.occurrences ":" location = 0%nat)
  ∧ ((∃ range, extractLocationInformation location = Ok range)
     ↔ Str.occurrences ":" location = 1%nat).
Proof.
  pose proof (split_length ":" location) as Hlen.
  unfold extractLocationInformation.
  destruct (Str.split ":" location) as [|file [|lineSpec [|third rest]]];
    simpl in *; [lia|..].
  - split_and!; split; try done; try lia. by intros [? ?].
  - assert (Str.occurrences ":" location = 1%nat) as -> by lia.
    split_and!; split; try done; try lia.
    + by destruct (Str.includes lineSpec "-").
    + by destruct (Str.includes lineSpec "-").
    + intros _. destruct (Str.includes lineSpec "-"); eauto.
  - split_and!; split; try done; try lia. by intros [? ?].
Qed.

(** ** The location parser: what [parseInt] lets through *)

Lemma digits_app_stop d rest acc :
  endsNumber rest →
  Str.digits 10 (NilEmpty.string_of_uint d +:+ rest) acc
  = Str.digits 10 (NilEmpty.string_of_uint d) acc.
Proof.
  intros Hrest. revert acc.
  induction d; intros acc; simpl; [|unfold Str.digit; simpl; apply IHd..].
  destruct rest as [|c rest]; [done|]. simpl. destruct Hrest as [-> _]. done.
Qed.

Lemma parseInt_numeral_app d rest :
  d ≠ Decimal.Nil →
  endsNumber rest →
  Str.parseInt (NilEmpty.string_of_uint d +:+ rest)
  = match Str.digits 10 (NilEmpty.string_of_uint d +:+ rest) None with
    | Some v => Num (1 * v)
    | None => NaN
    end.
Proof.
  intros Hd Hrest.
  destruct d as [|d|d|d|d|d|d|d|d|d|d]; try reflexivity; [done|].
  destruct d; try reflexivity.
  destruct rest as [|c rest]; [reflexivity|].
  destruct Hrest as (_ & Hx & HX).
  destruct c as [[] [] [] [] [] [] [] []]; try reflexivity; done.
Qed.

Lemma parseInt_ToString_app z rest :
  0 ≤ z → endsNumber rest → Str.parseInt (ToString z +:+ rest) = Num z.
Proof.
  intros (d & Hd & -> & <-)%ToString_numeral Hrest.
  rewrite parseInt_numeral_app, digits_app_stop, (digits_value d None) by done.
  f_equal. lia.
Qed.

(** X2. [parseInt] stops at the first character that is not a digit and
    ignores the rest: after a decimal line number, text that starts with
    neither a digit nor [x] (and has no [:] or [-]) changes nothing, so
    ["a/b.ts:10.5"] is line 10. *)
Theorem extractLocationInformation_trailing file n rest :
  Str.occurrences ":" file = 0%nat →
  0 ≤ n →
  Str.occurrences ":" rest = 0%nat →
  Str.occurrences "-" rest = 0%nat →
  endsNumber rest →
  extractLocationInformation (file +:+ ":" +:+ ToString n +:+ rest)
  = Ok {| fileName := file; startLine := Num n; endLine := Num n |}.
Proof.
  intros Hfile Hn Hcolon Hdash Hrest.
  rewrite extract_single, parseInt_ToString_app; [done..| |].
  - rewrite occurrences_app, Hcolon.
    by rewrite (allDigits_occurrences ":" _ not_digit_colon (ToString_allDigits n Hn)).
  - rewrite occurrences_app, Hdash.
    by rewrite (allDigits_occurrences "-" _ not_digit_dash (ToString_allDigits n Hn)).
Qed.

Lemma extractLocationInformation_trailing_witness :
  extractLocationInformation "a/b.ts:10.5"
  = Ok {| fileName := "a/b.ts"; startLine := Num 10; endLine := Num 10 |}.
Proof.
  apply (extractLocationInformation_trailing "a/b.ts" 10 ".5");
    (reflexivity || lia || (vm_compute; by repeat split)).
Defined.

(** ** Ranges that hold no line, and file names that hold every path *)

Lemma filter_none {A} (p : A → bool) xs :
  (∀ x, p x = false) → List.filter p xs = [].
Proof. intros Hp. induction xs as [|x xs IH]; simpl; [done|]. by rewrite Hp. Qed.

Lemma mutantsDetected_none gradedLocations mutationResults :
  (∀ mutant, mutantContainsThisGradedUnit gradedLocations mutant = false) →
  mutantsDetected gradedLocations mutationResults = 0.
Proof.
  intros Hnone. unfold mutantsDetected.
  generalize (List.filter (mutatedFileContainsAGradedUnit gradedLocations)
                (map_to_list (files mutationResults)).*1).
  intros paths. induction paths as [|path paths IH]; simpl; [done|].
  by rewrite filter_none.
Qed.

Lemma mutantContains_single range mutant :
  mutantContainsThisGradedUnit [range] mutant
  = number_leb (startLine range) (Num (line mutant))
    && number_geb (endLine range) (Num (line mutant)).
Proof.
  unfold mutantContainsThisGradedUnit. cbn [List.find].
  case (number_leb (startLine range) (Num (line mutant))
        && number_geb (endLine range) (Num (line mutant))).
  - by apply bool_decide_eq_true.
  - apply bool_decide_eq_false. by intros [].
Qed.

(** X3. A location whose range is reversed, or whose line is no number,
    is parsed without an error, and a unit with that location alone
    detects no mutant of any report. *)
Theorem empty_range_detects_nothing file a b lineSpec mutationResults :
  Str.occurrences ":" file = 0%nat →
  0 ≤ b → b < a →
  Str.occurrences ":" lineSpec = 0%nat →
  Str.occurrences "-" lineSpec = 0%nat →
  Str.parseInt lineSpec = NaN →
  (∃ range,
     extractLocationInformation (file +:+ ":" +:+ ToString a +:+ "-" +:+ ToString b)
     = Ok range
     ∧ startLine range = Num a ∧ endLine range = Num b
     ∧ mutantsDetected [range] mutationResults = 0)
  ∧ (∃ range,
       extractLocationInformation (file +:+ ":" +:+ lineSpec) = Ok range
       ∧ startLine range = NaN ∧ endLine range = NaN
       ∧ mutantsDetected [range] mutationResults = 0).
Proof.
  intros Hfile Hb Hab Hcolon Hdash Hnan. split.
  - destruct (extractLocationInformation_formats file 0 a b "::")
      as (_ & -> & _); [done|lia..|by vm_compute|].
    eexists. split_and!; [done..|]. apply mutantsDetected_none. intros mutant.
    rewrite mutantContains_single. unfold number_geb. simpl.
    apply andb_false_iff. rewrite !Z.leb_gt. lia.
  - rewrite extract_single, Hnan by done.
    eexists. split_and!; [done..|]. apply mutantsDetected_none. intros mutant.
    by rewrite mutantContains_single.
Qed.

Lemma empty_range_detects_nothing_witness :
  (∃ range,
     extractLocationInformation "foo.ts:20-10" = Ok range
     ∧ startLine range = Num 20 ∧ endLine range = Num 10
     ∧ mutantsDetected [range] Scenario.report = 0)
  ∧ (∃ range,
       extractLocationInformation "foo.ts:all" = Ok range
       ∧ startLine range = NaN ∧ endLine range = NaN
       ∧ mutantsDetected [range] Scenario.report = 0).
Proof.
  apply (empty_range_detects_nothing "foo.ts" 20 10 "all" Scenario.report);
    (reflexivity || lia).
Defined.

Lemma includes_empty s : Str.includes s EmptyString = true.
Proof. destruct s; simpl; by rewrite ?startsWith_empty. Qed.

(** X4. [includes] of the empty text holds for every path: a location
    with nothing before its [:] names every file of the report, and the
    unit counts the killed mutants of all files on the lines of the
    range. *)
Theorem empty_fileName_matches_every_file a b mutationResults :
  0 ≤ a → 0 ≤ b →
  ∃ range,
    extractLocationInformation (":" +:+ ToString a +:+ "-" +:+ ToString b) = Ok range
    ∧ (∀ file, mutatedFileContainsAGradedUnit [range] file = true)
    ∧ mutantsDetected [range] mutationResults
      = Z.of_nat (sum_list
          ((λ entry, length (filter (λ mutant, a ≤ line mutant ≤ b
                                               ∧ status mutant = "Killed") entry.2))
             <$> map_to_list (files mutationResults))).
Proof.
  intros Ha Hb.
  destruct (extractLocationInformation_formats "" 0 a b "::")
    as (_ & Hrange & _); [done|lia..|by vm_compute|].
  eexists. split_and!; [exact Hrange|..].
  - intros file. unfold mutatedFileContainsAGradedUnit. simpl.
    by rewrite includes_empty.
  - rewrite mutantsDetected_counted by (repeat constructor; done).
    unfold countedMutants. do 2 f_equal. apply list_fmap_ext.
    intros _ [file mutants] _. simpl. f_equal. apply list_filter_iff.
    intros mutant. unfold counts. rewrite !Exists_cons, !Exists_nil. simpl.
    split.
    + intros ([?|[]] & [?|[]] & ?). done.
    + intros [? ?]. split_and!; [left|by left|done].
      by exists EmptyString, file.
Qed.

Lemma empty_fileName_matches_every_file_witness :
  ∃ range,
    extractLocationInformation ":1-5" = Ok range
    ∧ (∀ file, mutatedFileContainsAGradedUnit [range] file = true)
    ∧ mutantsDetected [range] Scenario.report
      = Z.of_nat (sum_list
          ((λ entry, length (filter (λ mutant, 1 ≤ line mutant ≤ 5
                                               ∧ status mutant = "Killed") entry.2))
             <$> map_to_list (files Scenario.report))).
Proof.
  apply (empty_fileName_matches_every_file 1 5 Scenario.report); lia.
Defined.

(** ** The score, whatever the order of the table *)

Lemma scoreFor_last before bp after d :
  minimumMutantsDetected bp ≤ d →
  Forall (λ later, d < minimumMutantsDetected later) after →
  scoreFor (before ++ bp :: after) d = pointsToAward bp.
Proof.
  intros Hbp Hafter.
  induction after as [|x after IH] using rev_ind.
  - rewrite (scoreFor_snoc before bp).
    by destruct (Z.leb_spec (minimumMutantsDetected bp) d); [|lia].
  - apply Forall_app in Hafter as [Hafter Hx%Forall_inv].
    replace (before ++ bp :: after ++ [x]) with ((before ++ bp :: after) ++ [x])
      by by rewrite <- app_assoc.
    simpl in Hx. rewrite scoreFor_snoc.
    destruct (Z.leb_spec (minimumMutantsDetected x) d); [lia|]. by apply IH.
Qed.

Lemma scoreFor_in_table bps d :
  scoreFor bps d = 0 ∨ ∃ bp, bp ∈ bps ∧ scoreFor bps d = pointsToAward bp.
Proof.
  induction bps as [|x bps IH] using rev_ind; [by left|].
  rewrite scoreFor_snoc. destruct (minimumMutantsDetected x <=? d).
  - right. exists x. split; [|done]. apply elem_of_app. right. apply list_elem_of_here.
  - destruct IH as [?|(bp & Hbp & ?)]; [by left|].
    right. exists bp. split; [|done]. apply elem_of_app. by left.
Qed.

(** X5. The scan runs from the end of the table as declared, whatever
    its order: the score is the points of the last declared breakpoint
    whose threshold the kill count reaches, and 0 when it reaches none.
    So it is in both revisions, for any table that is not empty. *)
Theorem gradeMutationUnit_last_declared
    config mutationResults (st : heap) gradedLocations before bp after :
  result_map extractLocationInformation (locations config) = Ok gradedLocations →
  st !!! breakPoints config = before ++ bp :: after →
  let d := mutantsDetected gradedLocations mutationResults in
  Forall (λ later, d < minimumMutantsDetected later) after →
  ∃ r1 st1 r2,
    InPlace.gradeMutationUnit config mutationResults st = (Ok r1, st1)
    ∧ Copying.gradeMutationUnit config mutationResults st = (Ok r2, st)
    ∧ (minimumMutantsDetected bp ≤ d →
       score r1 = pointsToAward bp ∧ score r2 = pointsToAward bp)
    ∧ (Forall (λ earlier, d < minimumMutantsDetected earlier) (before ++ [bp]) →
       score r1 = 0 ∧ score r2 = 0).
Proof.
  intros Hlocs Hbps d Hafter.
  destruct (gradeMutationUnit_returns config mutationResults st _ Hlocs)
    as (first & last & r1 & r2 & _ & _ & [= <-] & [= <-] & Hr1 & Hr2).
  { rewrite Hbps. by destruct before. }
  do 3 eexists. split_and!; [done..| |]; simpl; rewrite Hbps.
  - intros Hbp. by rewrite scoreFor_last.
  - intros Hnone. rewrite scoreFor_below; [done|].
    intros other [Hin|Hin]%elem_of_app.
    + rewrite Forall_forall in Hnone. apply Hnone. apply elem_of_app. by left.
    + apply elem_of_cons in Hin as [->|Hin].
      * rewrite Forall_forall in Hnone. apply Hnone, elem_of_app. right.
        apply list_elem_of_here.
      * rewrite Forall_forall in Hafter. by apply Hafter.
Qed.

Lemma gradeMutationUnit_last_declared_witness :
  ∃ r1 st1 r2,
    InPlace.gradeMutationUnit Scenario.U Scenario.report descendingTable = (Ok r1, st1)
    ∧ Copying.gradeMutationUnit Scenario.U Scenario.report descendingTable
      = (Ok r2, descendingTable)
    ∧ (minimumMutantsDetected (Scenario.bp 0 1)
       ≤ mutantsDetected scenarioLocations Scenario.report →
       score r1 = pointsToAward (Scenario.bp 0 1)
       ∧ score r2 = pointsToAward (Scenario.bp 0 1))
    ∧ (Forall (λ earlier, mutantsDetected scenarioLocations Scenario.report
                          < minimumMutantsDetected earlier)
              ([Scenario.bp 3 5] ++ [Scenario.bp 0 1]) →
       score r1 = 0 ∧ score r2 = 0).
Proof.
  apply (gradeMutationUnit_last_declared Scenario.U Scenario.report descendingTable
           scenarioLocations [Scenario.bp 3 5] (Scenario.bp 0 1) []).
  - reflexivity.
  - reflexivity.
  - constructor.
Defined.

Lemma Math_max_unique xs m :
  m ∈ xs → (∀ x, x ∈ xs → x ≤ m) → Math_max xs = Num m.
Proof.
  intros Hin Hmax.
  destruct (Math_max_spec xs) as (m' & -> & Hin' & Hmax').
  { intros ->. inversion Hin. }
  f_equal. apply Z.le_antisymm; auto.
Qed.

Lemma Math_max_reverse xs : Math_max (reverse xs) = Math_max xs.
Proof.
  destruct xs as [|x xs]; [done|].
  destruct (Math_max_spec (x :: xs)) as (m & -> & Hin & Hmax); [done|].
  apply Math_max_unique.
  - by rewrite elem_of_reverse.
  - intros y Hy. rewrite elem_of_reverse in Hy. by apply Hmax.
Qed.

(** X6. For a table that is not empty, the two revisions award the same
    score on one call; it is 0 or the points of a breakpoint of the
    table, and it does not exceed [max_score] as soon as some points of
    the table are not negative. *)
Theorem gradeMutationUnit_score_within_max
    config mutationResults (st : heap) gradedLocations :
  result_map extractLocationInformation (locations config) = Ok gradedLocations →
  st !!! breakPoints config ≠ [] →
  Exists (λ bp, 0 ≤ pointsToAward bp) (st !!! breakPoints config) →
  ∃ r1 st1 r2 m,
    InPlace.gradeMutationUnit config mutationResults st = (Ok r1, st1)
    ∧ Copying.gradeMutationUnit config mutationResults st = (Ok r2, st)
    ∧ score r1 = score r2
    ∧ (score r2 = 0
       ∨ ∃ bp, bp ∈ st !!! breakPoints config ∧ score r2 = pointsToAward bp)
    ∧ max_score r1 = Num m ∧ max_score r2 = Num m
    ∧ score r2 ≤ m.
Proof.
  intros Hlocs Hne Hsome.
  destruct (gradeMutationUnit_returns config mutationResults st _ Hlocs Hne)
    as (first & last & r1 & r2 & _ & _ & [= <-] & [= <-] & Hr1 & Hr2).
  destruct (Math_max_spec (pointsToAward <$> st !!! breakPoints config))
    as (m & Hm & Hin & Hmax).
  { by intros ?%fmap_nil_inv. }
  eexists _, _, _, m. split_and!; [done..|apply scoreFor_in_table|done|done|].
  simpl. destruct (scoreFor_in_table (st !!! breakPoints config)
                     (mutantsDetected gradedLocations mutationResults))
    as [->|(bp & Hbp & ->)].
  - apply Exists_exists in Hsome as (bp & Hbp & Hpos).
    etrans; [exact Hpos|]. apply Hmax. by apply list_elem_of_fmap_2.
  - apply Hmax. by apply list_elem_of_fmap_2.
Qed.

Lemma gradeMutationUnit_score_within_max_witness :
  ∃ r1 st1 r2 m,
    InPlace.gradeMutationUnit Scenario.U Scenario.report Scenario.store = (Ok r1, st1)
    ∧ Copying.gradeMutationUnit Scenario.U Scenario.report Scenario.store
      = (Ok r2, Scenario.store)
    ∧ score r1 = score r2
    ∧ (score r2 = 0
       ∨ ∃ bp, bp ∈ Scenario.store !!! breakPoints Scenario.U
               ∧ score r2 = pointsToAward bp)
    ∧ max_score r1 = Num m ∧ max_score r2 = Num m
    ∧ score r2 ≤ m.
Proof.
  apply (gradeMutationUnit_score_within_max Scenario.U Scenario.report
           Scenario.store scenarioLocations).
  - reflexivity.
  - vm_compute. discriminate.
  - apply (bool_decide_unpack _). vm_compute. exact I.
Defined.

(** ** Two calls of [src/main.ts] on one unit *)

Lemma lookup_total_nonempty (st : heap) r :
  st !!! r ≠ [] → st !! r = Some (st !!! r).
Proof.
  rewrite lookup_total_alt. by destruct (st !! r).
Qed.

Lemma scoreFor_reverse_head bps first d :
  head bps = Some first →
  minimumMutantsDetected first ≤ d →
  scoreFor (reverse bps) d = pointsToAward first.
Proof.
  intros Hfirst Hd. unfold scoreFor. rewrite reverse_involutive.
  destruct bps as [|x bps]; simplify_eq/=.
  by destruct (Z.leb_spec (minimumMutantsDetected first) d); [|lia].
Qed.

(** X7. [reverse()] undoes itself: a second call of the [gradeMutationUnit]
    of [src/main.ts] on the same unit puts the stored table back in
    declared order. That call scans the table from its first breakpoint:
    it awards the points of the first declared breakpoint as soon as the
    count reaches its threshold, and its summary shows the threshold of
    the last declared breakpoint, where the first call showed the first. *)
Theorem InPlace_gradeMutationUnit_twice
    config mutationResults (st : heap) gradedLocations :
  result_map extractLocationInformation (locations config) = Ok gradedLocations →
  st !!! breakPoints config ≠ [] →
  let d := mutantsDetected gradedLocations mutationResults in
  ∃ first last r1 st1 r2,
    head (st !!! breakPoints config) = Some first
    ∧ list.last (st !!! breakPoints config) = Some last
    ∧ InPlace.gradeMutationUnit config mutationResults st = (Ok r1, st1)
    ∧ InPlace.gradeMutationUnit config mutationResults st1 = (Ok r2, st)
    ∧ output r1 = summary d (minimumMutantsDetected first)
    ∧ output r2 = summary d (minimumMutantsDetected last)
    ∧ max_score r2 = max_score r1
    ∧ (minimumMutantsDetected first ≤ d → score r2 = pointsToAward first).
Proof.
  intros Hlocs Hne d.
  destruct (head_is_Some _ Hne) as [first Hfirst].
  destruct (last_is_Some' _ Hne) as [last Hlast].
  exists first, last.
  rewrite (InPlace_gradeMutationUnit_run _ _ _ _ Hlocs), Hfirst.
  do 3 eexists. split_and!; [done|done|reflexivity|..].
  - rewrite (InPlace_gradeMutationUnit_run _ _ _ _ Hlocs).
    rewrite lookup_total_insert_eq, head_reverse, Hlast, reverse_involutive.
    rewrite insert_insert_eq, insert_id by by apply lookup_total_nonempty.
    reflexivity.
  - done.
  - done.
  - simpl. by rewrite fmap_reverse, Math_max_reverse.
  - simpl. intros Hd. by apply scoreFor_reverse_head.
Qed.

Lemma InPlace_gradeMutationUnit_twice_witness :
  ∃ first last r1 st1 r2,
    head (Scenario.store !!! breakPoints Scenario.U) = Some first
    ∧ list.last (Scenario.store !!! breakPoints Scenario.U) = Some last
    ∧ InPlace.gradeMutationUnit Scenario.U Scenario.report Scenario.store = (Ok r1, st1)
    ∧ InPlace.gradeMutationUnit Scenario.U Scenario.report st1
      = (Ok r2, Scenario.store)
    ∧ output r1 = summary (mutantsDetected scenarioLocations Scenario.report)
                    (minimumMutantsDetected first)
    ∧ output r2 = summary (mutantsDetected scenarioLocations Scenario.report)
                    (minimumMutantsDetected last)
    ∧ max_score r2 = max_score r1
    ∧ (minimumMutantsDetected first ≤ mutantsDetected scenarioLocations Scenario.report →
       score r2 = pointsToAward first).
Proof.
  apply (InPlace_gradeMutationUnit_twice Scenario.U Scenario.report Scenario.store
           scenarioLocations).
  - reflexivity.
  - vm_compute. discriminate.
Defined.

(** ** Exceptions of the unit grader and of the validator *)

Lemma result_map_throw_first {A B} (f : A → result B) before bad after e :
  Forall (λ x, ∃ y, f x = Ok y) before →
  f bad = Throw e →
  result_map f (before ++ bad :: after) = Throw e.
Proof.
  intros Hbefore Hbad. induction Hbefore as [|x before [y Hx] _ IH]; simpl.
  - by rewrite Hbad.
  - by rewrite Hx, IH.
Qed.

(** X8. The locations are parsed before the table is scanned: when a
    location does not parse, [gradeMutationUnit] throws the exception of
    the first such location, in both revisions, whatever the table (an
    empty one too), and [src/main.ts] has not yet reversed anything. *)
Theorem gradeMutationUnit_location_error
    config mutationResults (st : heap) before bad after e :
  locations config = before ++ bad :: after →
  Forall (λ location, ∃ range, extractLocationInformation location = Ok range) before →
  extractLocationInformation bad = Throw e →
  InPlace.gradeMutationUnit config mutationResults st = (Throw e, st)
  ∧ Copying.gradeMutationUnit config mutationResults st = (Throw e, st).
Proof.
  intros Hlocations Hbefore Hbad.
  assert (result_map extractLocationInformation (locations config) = Throw e) as Hlocs.
  { rewrite Hlocations. by apply result_map_throw_first. }
  split; by apply gradeMutationUnit_with_throw.
Qed.

Lemma gradeMutationUnit_location_error_witness :
  InPlace.gradeMutationUnit
    {| name := "W"; breakPoints := 1%positive;
       locations := ["foo.ts:1-5"; "foo.ts:7:2"; "foo.ts"] |}
    Scenario.report emptyTable
  = (Throw UnsupportedLocationFormat, emptyTable)
  ∧ Copying.gradeMutationUnit
      {| name := "W"; breakPoints := 1%positive;
         locations := ["foo.ts:1-5"; "foo.ts:7:2"; "foo.ts"] |}
      Scenario.report emptyTable
    = (Throw UnsupportedLocationFormat, emptyTable).
Proof.
  apply (gradeMutationUnit_location_error _ _ _ ["foo.ts:1-5"] "foo.ts:7:2" ["foo.ts"]).
  - reflexivity.
  - repeat constructor. by eexists.
  - reflexivity.
Defined.

Lemma validateGradedUnits_heap units (st : heap) :
  (validateGradedUnits units st).2 = st.
Proof.
  induction units as [|u units IH]; simpl; [done|].
  unfold mbind, M_bind, readArray, lift.
  by destruct (validateBreakPoints _ _ _).
Qed.



Lemma risesFrom_above lastBP bps :
  risesFrom lastBP bps →
  strictlyAscending bps ∧ Forall (λ bp, lastBP < minimumMutantsDetected bp) bps.
Proof.
  unfold risesFrom. intros Hs. split.
  - apply strictlyAscending_thresholds. by eapply Sorted_inv.
  - apply Sorted_StronglySorted in Hs; [|apply _].
    apply StronglySorted_inv in Hs as [_ Hall].
    rewrite Forall_fmap in Hall.
    eapply Forall_impl; [exact Hall|]. intros bp Hbp. exact Hbp.
Qed.

Lemma validateConfig_ok_units config (st : heap) u :
  validateConfig config st = (Ok tt, st) →
  u ∈ gradedUnits config →
  strictlyAscending (st !!! breakPoints u)
  ∧ Forall (λ bp, 0 ≤ minimumMutantsDetected bp) (st !!! breakPoints u).
Proof.
  intros Hvalid Hu.
  destruct (decide (risesFrom (-1) (st !!! breakPoints u))) as [Hrises|Hbad].
  - apply risesFrom_above in Hrises as [Hs Hall]. split; [done|].
    eapply Forall_impl; [done|]. simpl. lia.
  - destruct (validateConfig_spec config st) as [Hthrow _].
    destruct Hthrow as (v & _ & _ & Hv); [by exists u|]. congruence.
Qed.



(** ** [src/main.ts] over a whole configuration *)

Lemma InPlace_M_map_run results units (st st' : heap) :
  NoDup (breakPoints <$> units) →
  Forall (λ u, st !!! breakPoints u ≠ []
               ∧ ∃ locs, result_map extractLocationInformation (locations u) = Ok locs)
         units →
  (∀ u, u ∈ units → st' !!! breakPoints u = st !!! breakPoints u) →
  ∃ ts st'',
    M_map (λ u, InPlace.gradeMutationUnit u results) units st' = (Ok ts, st'')
    ∧ Forall2 (λ u t, (InPlace.gradeMutationUnit u results st).1 = Ok t) units ts
    ∧ (∀ u, u ∈ units → st'' !!! breakPoints u = reverse (st !!! breakPoints u))
    ∧ (∀ r, r ∉ breakPoints <$> units → st'' !!! r = st' !!! r).
Proof.
  intros Hnodup Hunits. revert st' Hnodup.
  induction Hunits as [|u units [Hne [locs Hlocs]] _ IH]; intros st' Hnodup Hsame.
  { exists [], st'. by split_and!; [|constructor|intros ? ?%elem_of_nil|]. }
  rewrite fmap_cons in Hnodup. apply NoDup_cons in Hnodup as [Hu Hnodup].
  assert (st' !!! breakPoints u = st !!! breakPoints u) as Hu'
    by apply Hsame, list_elem_of_here.
  destruct (gradeMutationUnit_returns u results st locs Hlocs Hne)
    as (first & _ & t & _ & Hfirst & _ & Ht & _ & Halone & _).
  assert (InPlace.gradeMutationUnit u results st'
          = (Ok t, <[breakPoints u := reverse (st !!! breakPoints u)]> st')) as Hrun.
  { rewrite (InPlace_gradeMutationUnit_run _ _ _ _ Hlocs). simpl.
    by rewrite Hu', Hfirst, Ht. }
  destruct (IH (<[breakPoints u := reverse (st !!! breakPoints u)]> st') Hnodup)
    as (ts & st'' & Hmap & Hall & Hrev & Hother).
  { intros v Hv. rewrite lookup_total_insert_ne.
    - by apply Hsame, list_elem_of_further.
    - intros Heq. apply Hu. rewrite Heq. by apply list_elem_of_fmap_2. }
  exists (t :: ts), st''. split_and!.
  - simpl. unfold mbind, M_bind. by rewrite Hrun, Hmap.
  - constructor; [by rewrite Halone|done].
  - intros v [->|Hv]%elem_of_cons; [|by apply Hrev].
    by rewrite Hother, lookup_total_insert_eq.
  - intros r Hr. rewrite fmap_cons, not_elem_of_cons in Hr. destruct Hr as [Hr1 Hr2].
    by rewrite Hother, lookup_total_insert_ne.
Qed.

(** X11. On a validated configuration whose units have each their own
    table, not empty, and locations that parse, the [gradeStrykerResults]
    of [src/main.ts] returns one result for each unit, in order, with the
    name of the unit and the score that the specification awards; when
    it returns, the stored table of every unit is reversed. *)
Theorem InPlace_gradeStrykerResults_scores schema results (st : heap) :
  validateConfig schema st = (Ok tt, st) →
  NoDup (breakPoints <$> gradedUnits schema) →
  Forall (λ u, st !!! breakPoints u ≠ []
               ∧ ∃ locs, result_map extractLocationInformation (locations u) = Ok locs)
         (gradedUnits schema) →
  ∃ testResults st',
    InPlace.gradeStrykerResults schema results st = (Ok (graderOutput testResults), st')
    ∧ Forall2 (λ u t,
         test_name t = name u
         ∧ ∃ locs, result_map extractLocationInformation (locations u) = Ok locs
                   ∧ resolvedScore (st !!! breakPoints u)
                       (mutantsDetected locs results) (score t))
         (gradedUnits schema) testResults
    ∧ ∀ u, u ∈ gradedUnits schema →
           st' !!! breakPoints u = reverse (st !!! breakPoints u).
Proof.
  intros Hvalid Hnodup Hunits.
  destruct (InPlace_M_map_run results (gradedUnits schema) st st Hnodup Hunits)
    as (ts & st' & Hmap & Hall & Hrev & _); [done|].
  exists ts, st'. split_and!; [|clear Hmap|done].
  - unfold InPlace.gradeStrykerResults, gradeStrykerResults_with, mbind, M_bind.
    fold InPlace.gradeMutationUnit. by rewrite Hmap.
  - assert (∀ u, u ∈ gradedUnits schema → strictlyAscending (st !!! breakPoints u))
      as Hsorted by (intros u Hu; by eapply validateConfig_ok_units).
    clear Hvalid Hnodup Hrev.
    induction Hall as [|u t units ts Ht _ IH]; [constructor|].
    apply Forall_cons in Hunits as [[Hne [locs Hlocs]] Hunits].
    constructor.
    + rewrite (InPlace_gradeMutationUnit_run _ _ _ _ Hlocs) in Ht. simpl in Ht.
      destruct (head_is_Some _ Hne) as [first Hfirst]. rewrite Hfirst in Ht.
      injection Ht as <-. split; [done|]. exists locs. split; [done|].
      apply scoreFor_resolved, Hsorted, list_elem_of_here.
    + apply IH; [done|]. intros v Hv. by apply Hsorted, list_elem_of_further.
Qed.

Lemma InPlace_gradeStrykerResults_scores_witness :
  ∃ testResults st',
    InPlace.gradeStrykerResults Scenario.config Scenario.report Scenario.store
    = (Ok (graderOutput testResults), st')
    ∧ Forall2 (λ u t,
         test_name t = name u
         ∧ ∃ locs, result_map extractLocationInformation (locations u) = Ok locs
                   ∧ resolvedScore (Scenario.store !!! breakPoints u)
                       (mutantsDetected locs Scenario.report) (score t))
         (gradedUnits Scenario.config) testResults
    ∧ ∀ u, u ∈ gradedUnits Scenario.config →
           st' !!! breakPoints u = reverse (Scenario.store !!! breakPoints u).
Proof.
  apply (InPlace_gradeStrykerResults_scores Scenario.config Scenario.report
           Scenario.store).
  - reflexivity.
  - apply (bool_decide_unpack _). vm_compute. exact I.
  - repeat constructor; (by vm_compute) || (by exists scenarioLocations).
Defined.

Lemma InPlace_M_map_shared results units (st st' : heap) :
  upToReversal st st' →
  Forall (λ u, st !!! breakPoints u ≠ []
               ∧ ∃ locs, result_map extractLocationInformation (locations u) = Ok locs)
         units →
  ∃ ts st'',
    M_map (λ u, InPlace.gradeMutationUnit u results) units st' = (Ok ts, st'')
    ∧ Forall2 (λ u t,
         test_name t = name u
         ∧ max_score t = Math_max (pointsToAward <$> st !!! breakPoints u)
         ∧ ∃ locs target,
             result_map extractLocationInformation (locations u) = Ok locs
             ∧ output t = summary (mutantsDetected locs results) target)
         units ts
    ∧ upToReversal st st''.
Proof.
  intros Hrev Hunits. revert st' Hrev.
  induction Hunits as [|u units [Hne [locs Hlocs]] _ IH]; intros st' Hrev.
  { exists [], st'. split_and!; [done|constructor|done]. }
  assert (st' !!! breakPoints u ≠ []
          ∧ Math_max (pointsToAward <$> st' !!! breakPoints u)
            = Math_max (pointsToAward <$> st !!! breakPoints u)) as [Hne' Hmax].
  { destruct (Hrev (breakPoints u)) as [->| ->]; [done|]. split.
    - intros Hnil. apply Hne. by rewrite <- (reverse_involutive (st !!! _)), Hnil.
    - by rewrite fmap_reverse, Math_max_reverse. }
  destruct (gradeMutationUnit_returns u results st' locs Hlocs Hne')
    as (first & _ & t & _ & _ & _ & [= <-] & _ & Hrun & _).
  destruct (IH (<[breakPoints u := reverse (st' !!! breakPoints u)]> st'))
    as (ts & st'' & Hmap & Hall & Hrev'').
  { intros r. destruct (decide (r = breakPoints u)) as [->|Hr].
    - rewrite lookup_total_insert_eq.
      destruct (Hrev (breakPoints u)) as [->| ->]; [by right|left].
      apply reverse_involutive.
    - rewrite lookup_total_insert_ne by done. apply Hrev. }
  eexists (_ :: ts), st''. split_and!; [|constructor; [|done]|done].
  - simpl. unfold mbind, M_bind. by rewrite Hrun, Hmap.
  - simpl. split_and!; [done..|]. by eexists locs, _.
Qed.

(** X12. Units that share tables do not confuse everything in
    [src/main.ts]: when every table is not empty and every location
    parses, [gradeStrykerResults] still returns one result for each unit,
    in order, with the name of the unit, the [max_score] of its table as
    declared and the kill count of the unit in the summary; and every
    table is left as declared or reversed. *)
Theorem InPlace_gradeStrykerResults_shared schema results (st : heap) :
  Forall (λ u, st !!! breakPoints u ≠ []
               ∧ ∃ locs, result_map extractLocationInformation (locations u) = Ok locs)
         (gradedUnits schema) →
  ∃ testResults st',
    InPlace.gradeStrykerResults schema results st = (Ok (graderOutput testResults), st')
    ∧ Forall2 (λ u t,
         test_name t = name u
         ∧ max_score t = Math_max (pointsToAward <$> st !!! breakPoints u)
         ∧ ∃ locs target,
             result_map extractLocationInformation (locations u) = Ok locs
             ∧ output t = summary (mutantsDetected locs results) target)
         (gradedUnits schema) testResults
    ∧ upToReversal st st'.
Proof.
  intros Hunits.
  destruct (InPlace_M_map_shared results (gradedUnits schema) st st)
    as (ts & st' & Hmap & Hall & Hrev); [by left|done|].
  exists ts, st'. split_and!; [|done..].
  unfold InPlace.gradeStrykerResults, gradeStrykerResults_with, mbind, M_bind.
  fold InPlace.gradeMutationUnit. by rewrite Hmap.
Qed.

Lemma InPlace_gradeStrykerResults_shared_witness :
  ∃ testResults st',
    InPlace.gradeStrykerResults Scenario.shared Scenario.report Scenario.store
    = (Ok (graderOutput testResults), st')
    ∧ Forall2 (λ u t,
         test_name t = name u
         ∧ max_score t = Math_max (pointsToAward <$> Scenario.store !!! breakPoints u)
         ∧ ∃ locs target,
             result_map extractLocationInformation (locations u) = Ok locs
             ∧ output t = summary (mutantsDetected locs Scenario.report) target)
         (gradedUnits Scenario.shared) testResults
    ∧ upToReversal Scenario.store st'.
Proof.
  apply (InPlace_gradeStrykerResults_shared Scenario.shared Scenario.report
           Scenario.store).
  repeat constructor; (by vm_compute) || (by exists scenarioLocations).
Defined.

(** ** Bounds of the kill count *)

Lemma length_filter_impl {A} (P Q : A → Prop)
    `{∀ x, Decision (P x)} `{∀ x, Decision (Q x)} xs :
  (∀ x, P x → Q x) → (length (filter P xs) ≤ length (filter Q xs))%nat.
Proof.
  intros HPQ. induction xs as [|x xs IH]; [done|].
  rewrite !filter_cons. destruct (decide (P x)) as [HP|HP].
  - rewrite decide_True by auto. simpl. lia.
  - destruct (decide (Q x)); simpl; lia.
Qed.

Lemma sum_list_fmap_le {A} (f g : A → nat) xs :
  (∀ x, (f x ≤ g x)%nat) → (sum_list (f <$> xs) ≤ sum_list (g <$> xs))%nat.
Proof.
  intros Hfg. induction xs as [|x xs IH]; csimpl; [done|].
  specialize (Hfg x). lia.
Qed.

Lemma countedMutants_le gradedLocations more mutationResults :
  (countedMutants gradedLocations mutationResults
   ≤ countedMutants (gradedLocations ++ more) mutationResults)%nat.
Proof.
  apply sum_list_fmap_le. intros [file mutants]. apply length_filter_impl.
  intros mutant (Hfile & Hline & Hkilled). unfold counts.
  rewrite !Exists_app. auto.
Qed.

Lemma countedMutants_killed gradedLocations mutationResults :
  (countedMutants gradedLocations mutationResults ≤ killedMutants mutationResults)%nat.
Proof.
  apply sum_list_fmap_le. intros [file mutants]. apply length_filter_impl.
  by intros mutant (_ & _ & Hkilled).
Qed.

Lemma result_map_app_inv {A B} (f : A → result B) xs ys zs :
  result_map f (xs ++ ys) = Ok zs →
  ∃ zs1 zs2, zs = zs1 ++ zs2 ∧ result_map f xs = Ok zs1 ∧ result_map f ys = Ok zs2.
Proof.
  intros (zs1 & zs2 & H1 & H2 & ->)%result_map_Forall2%Forall2_app_inv_l.
  exists zs1, zs2. by rewrite <- !result_map_Forall2 in H1, H2.
Qed.

(** X13. The kill count of a unit is never negative and never more than
    the number of killed mutants of the report, and giving a unit more
    locations never lowers it. *)
Theorem mutantsDetected_bounds
    locations more gradedLocations extended mutationResults :
  result_map extractLocationInformation locations = Ok gradedLocations →
  result_map extractLocationInformation (locations ++ more) = Ok extended →
  0 ≤ mutantsDetected gradedLocations mutationResults
  ∧ mutantsDetected gradedLocations mutationResults
    ≤ mutantsDetected extended mutationResults
  ∧ mutantsDetected extended mutationResults
    ≤ Z.of_nat (killedMutants mutationResults).
Proof.
  intros Hlocs (zs1 & zs2 & -> & Hzs1 & Hzs2)%result_map_app_inv.
  assert (zs1 = gradedLocations) as -> by congruence.
  assert (Forall parsed (gradedLocations ++ zs2)) as Hparsed.
  { apply Forall_app. split; by eapply result_map_parsed. }
  rewrite !mutantsDetected_counted by (done || by eapply result_map_parsed).
  pose proof (countedMutants_le gradedLocations zs2 mutationResults).
  pose proof (countedMutants_killed (gradedLocations ++ zs2) mutationResults).
  lia.
Qed.

Lemma mutantsDetected_bounds_witness :
  0 ≤ mutantsDetected scenarioLocations Scenario.report
  ∧ mutantsDetected scenarioLocations Scenario.report
    ≤ mutantsDetected
        (scenarioLocations
         ++ [{| fileName := "bar.ts"; startLine := Num 7; endLine := Num 7 |}])
        Scenario.report
  ∧ mutantsDetected
      (scenarioLocations
       ++ [{| fileName := "bar.ts"; startLine := Num 7; endLine := Num 7 |}])
      Scenario.report
    ≤ Z.of_nat (killedMutants Scenario.report).
Proof.
  apply (mutantsDetected_bounds ["foo.ts:1-5"] ["bar.ts:7"]); reflexivity.
Defined.

(** * Further properties of the run *)

Section RunFacts.

#[local] Arguments append : simpl never.

Lemma M_map_length {A B} (f : A → M B) xs (st : heap) ys st' :
  M_map f xs st = (Ok ys, st') → length ys = length xs.
Proof.
  revert st ys st'. induction xs as [|x xs IH]; intros st ys st'; simpl.
  - unfold mret, M_ret. by intros [= <- _].
  - unfold mbind, M_bind, mret, M_ret. destruct (f x st) as [[y|e] st1]; [|done].
    destruct (M_map f xs st1) as [[zs|e] st2] eqn:Hrest; [|done].
    intros [= <- _]. simpl. f_equal. by eapply IH.
Qed.

Lemma gradeStrykerResults_with_tests scan schema results (st : heap) res :
  (gradeStrykerResults_with scan schema results st).1 = Ok res →
  ∃ ts, res = graderOutput ts ∧ length ts = length (gradedUnits schema).
Proof.
  unfold gradeStrykerResults_with, mbind, M_bind.
  destruct (M_map _ _ st) as [[ts|e] st'] eqn:Hmap; [|done].
  intros [= <-]. exists ts. split; [done|]. by eapply M_map_length.
Qed.

Lemma outputGrading_run w res s :
  CopyingRun.outputGrading w res s
  = match argv w !! 3%nat with
    | None => (inr tt, {| generalOutput := generalOutput s;
                          effects := effects s ++ [SetOutput res];
                          writes := writes s |})
    | Some outputFile =>
        match writeFile w (writes s) outputFile with
        | Some ex => (inl (Library ex),
                      {| generalOutput := generalOutput s;
                         effects := effects s ++ [SetOutput res];
                         writes := S (writes s) |})
        | None => (inr tt,
                   {| generalOutput := generalOutput s;
                      effects := (effects s ++ [SetOutput res]) ++ [WriteFile outputFile res];
                      writes := S (writes s) |})
        end
    end.
Proof.
  unfold CopyingRun.outputGrading, mbind, Script_bind, emit, written, mret, Script_ret.
  simpl. destruct (3 <? length (argv w))%nat eqn:Hlen.
  - apply Nat.ltb_lt in Hlen. destruct (lookup_lt_is_Some_2 (argv w) 3%nat Hlen) as [f Hf].
    rewrite Hf. simpl. by destruct (writeFile w (writes s) f).
  - apply Nat.ltb_ge in Hlen. rewrite (lookup_ge_None_2 (argv w) 3%nat); [done|lia].
Qed.

Lemma rescue_not_graded w failure s :
  Forall (λ effect, ¬ handsOutGrades effect) (effects s) →
  Forall (λ effect, ¬ handsOutGrades effect) (CopyingRun.rescue w failure s).
Proof.
  intros Hs. unfold CopyingRun.rescue. rewrite outputGrading_run. simpl.
  assert (¬ graded (notGraded (generalOutput s +:+ toString failure +:+ errorOccurred)))
    as Hnot by (by intros [? [=]]).
  destruct (argv w !! 3%nat) as [f|]; [destruct (writeFile w (writes s) f)|];
    simpl; rewrite ?Forall_app, ?Forall_singleton; simpl; tauto.
Qed.

Lemma lines_length s : (1 ≤ length (Text.lines s))%nat.
Proof. unfold Text.lines. rewrite split_length. lia. Qed.

Lemma find_copied w directory files :
  List.find (λ v : bool, v) (copied w directory <$> files) = None
  ↔ Forall (λ submissionFile, copied w directory submissionFile = false) files.
Proof.
  induction files as [|f files IH]; csimpl; [by split|].
  destruct (copied w directory f) eqn:Hf; simpl.
  - split; [done|]. intros [? _]%Forall_cons_1; congruence.
  - rewrite IH. split; [by constructor|by intros [_ ?]%Forall_cons_1].
Qed.

Lemma validateConfig_heap config (st : heap) :
  (validateConfig config st).2 = st.
Proof. apply validateGradedUnits_heap. Qed.

(** X14. When none of the submission files could be copied, which is so
    for every submission once the configuration names no file, the later
    revision hands out no test results, and what it does is the same
    whatever the commands and the mutation run would do: none of them is
    started. *)
Theorem CopyingRun_no_files_no_commands w directory loaded :
  CopyingRun.submissionDirectory w = inr directory →
  grading_yml w = inr loaded →
  Forall (λ submissionFile, copied w directory submissionFile = false)
         (submissionFiles (schema loaded)) →
  Forall (λ effect, ¬ handsOutGrades effect) (CopyingRun.run w)
  ∧ ∀ commands failed report,
      CopyingRun.run (withExec (withStryker w failed report) commands)
      = CopyingRun.run w.
Proof.
  intros Hdir Hyml Hnone%find_copied.
  assert (∀ commands failed report,
            CopyingRun.submissionDirectory (withExec (withStryker w failed report) commands)
            = CopyingRun.submissionDirectory w) as Hsame by done.
  split.
  - unfold CopyingRun.run. rewrite Hdir, Hyml.
    destruct (validateConfig _ _) as [[[]|e] store];
      [|rewrite Forall_singleton; simpl; tauto].
    simpl. unfold CopyingRun.attempt, mbind, Script_bind, fail. simpl.
    rewrite Hnone. by apply rescue_not_graded.
  - intros commands failed report. unfold CopyingRun.run.
    rewrite Hsame, Hdir. simpl. rewrite Hyml.
    destruct (validateConfig _ _) as [[[]|e] store]; [|done].
    unfold CopyingRun.attempt, mbind, Script_bind, fail. simpl.
    change (copied (withExec (withStryker w failed report) commands) directory)
      with (copied w directory).
    by rewrite Hnone.
Qed.

Lemma CopyingRun_no_files_no_commands_witness :
  let w := Surroundings.world (Surroundings.scenario 1) false Surroundings.allQuiet
             Surroundings.plain Surroundings.writable in
  Forall (λ effect, ¬ handsOutGrades effect) (CopyingRun.run w)
  ∧ ∀ commands failed report,
      CopyingRun.run (withExec (withStryker w failed report) commands)
      = CopyingRun.run w.
Proof.
  apply (CopyingRun_no_files_no_commands
           (Surroundings.world (Surroundings.scenario 1) false Surroundings.allQuiet
              Surroundings.plain Surroundings.writable)
           "submission" (Surroundings.scenario 1));
    [reflexivity|reflexivity|by repeat constructor].
Defined.

Ltac attempt_steps :=
  repeat match goal with
  | |- context [List.find ?p ?l] => destruct (List.find p l) eqn:?; simpl
  | |- context [rejected ?e] => destruct (rejected e) eqn:?; simpl
  | |- context [if ?a <? ?b then _ else _] => destruct (a <? b) eqn:?; simpl
  | |- context [if ?a && ?b then _ else _] => destruct (a && b) eqn:?; simpl
  end.

(** X15. When [npm install], the linter or [npm test] fails, neither
    revision hands out test results, and the run is the same whatever the
    mutation run would do: stryker is not started. *)
Theorem run_rejected_command w command :
  command ∈ ["npm install";
             "npx eslint . --ext .js,.jsx,.ts,.tsx -f visualstudio";
             "npm test"] →
  rejected (exec w command false) = true →
  Forall (λ effect, ¬ handsOutGrades effect) (InPlaceRun.run w)
  ∧ Forall (λ effect, ¬ handsOutGrades effect) (CopyingRun.run w)
  ∧ ∀ failed report,
      InPlaceRun.run (withStryker w failed report) = InPlaceRun.run w
      ∧ CopyingRun.run (withStryker w failed report) = CopyingRun.run w.
Proof.
  intros Hcommand Hrejected.
  assert (∀ s, Forall (λ effect, ¬ handsOutGrades effect)
                 (InPlaceRun.rescue
                    (CommandFailed (printed w command false))
                    {| generalOutput := s; effects := []; writes := 0 |})) as Hrescue.
  { intros s. unfold InPlaceRun.rescue. simpl. rewrite Forall_singleton.
    by intros [? [=]]. }
  split_and!.
  - unfold InPlaceRun.run. destruct (grading_yml w) as [ex|loaded];
      [rewrite Forall_singleton; simpl; tauto|].
    destruct (validateConfig _ _) as [[[]|e] store];
      [|rewrite Forall_singleton; simpl; tauto].
    unfold InPlaceRun.attempt, InPlaceRun.executeCommandOrFailWithOutput.
    unfold mbind, Script_bind, say, fail, mret, Script_ret. simpl.
    repeat (apply elem_of_cons in Hcommand as [->|Hcommand]);
      [..|by apply elem_of_nil in Hcommand]; attempt_steps;
      try congruence; try apply Hrescue;
      unfold InPlaceRun.rescue; simpl; rewrite Forall_singleton; by intros [? [=]].
  - unfold CopyingRun.run.
    destruct (CopyingRun.submissionDirectory w) as [failure|directory];
      [rewrite Forall_singleton; simpl; tauto|].
    destruct (grading_yml w) as [ex|loaded];
      [rewrite Forall_singleton; simpl; tauto|].
    destruct (validateConfig _ _) as [[[]|e] store];
      [|rewrite Forall_singleton; simpl; tauto].
    unfold CopyingRun.attempt, CopyingRun.executeCommandAndGetOutput.
    unfold mbind, Script_bind, say, fail, mret, Script_ret. simpl.
    repeat (apply elem_of_cons in Hcommand as [->|Hcommand]);
      [..|by apply elem_of_nil in Hcommand]; attempt_steps;
      try congruence; by apply rescue_not_graded.
  - intros failed report. split.
    + unfold InPlaceRun.run. simpl. destruct (grading_yml w) as [ex|loaded]; [done|].
      destruct (validateConfig _ _) as [[[]|e] store]; [|done].
      unfold InPlaceRun.attempt, InPlaceRun.executeCommandOrFailWithOutput.
      unfold mbind, Script_bind, say, fail, mret, Script_ret.
      unfold InPlaceRun.rescue, InPlaceRun.examined, copied, printed, withStryker.
      simpl.
      repeat (apply elem_of_cons in Hcommand as [->|Hcommand]);
        [..|by apply elem_of_nil in Hcommand]; attempt_steps;
        try congruence; reflexivity.
    + unfold CopyingRun.run.
      change (CopyingRun.submissionDirectory (withStryker w failed report))
        with (CopyingRun.submissionDirectory w).
      destruct (CopyingRun.submissionDirectory w) as [failure|directory]; [done|].
      simpl. destruct (grading_yml w) as [ex|loaded]; [done|].
      destruct (validateConfig _ _) as [[[]|e] store]; [|done].
      unfold CopyingRun.attempt, CopyingRun.executeCommandAndGetOutput.
      unfold mbind, Script_bind, say, fail, mret, Script_ret.
      unfold CopyingRun.rescue, CopyingRun.outputGrading, CopyingRun.examined,
        written, copied, printed, withStryker.
      simpl.
      repeat (apply elem_of_cons in Hcommand as [->|Hcommand]);
        [..|by apply elem_of_nil in Hcommand]; attempt_steps;
        try congruence; reflexivity.
Qed.

Lemma run_rejected_command_witness :
  let w := Surroundings.world (Surroundings.scenario 1) true Surroundings.testsFail
             Surroundings.plain Surroundings.writable in
  Forall (λ effect, ¬ handsOutGrades effect) (InPlaceRun.run w)
  ∧ Forall (λ effect, ¬ handsOutGrades effect) (CopyingRun.run w)
  ∧ ∀ failed report,
      InPlaceRun.run (withStryker w failed report) = InPlaceRun.run w
      ∧ CopyingRun.run (withStryker w failed report) = CopyingRun.run w.
Proof.
  apply (run_rejected_command
           (Surroundings.world (Surroundings.scenario 1) true Surroundings.testsFail
              Surroundings.plain Surroundings.writable)
           "npm test"); [|reflexivity].
  do 2 apply list_elem_of_further. apply list_elem_of_here.
Defined.

Lemma CopyingRun_attempt_cases w loaded store fileResults text :
  (∃ failure text',
     CopyingRun.attempt w loaded store fileResults
       {| generalOutput := text; effects := []; writes := 0 |}
     = (inl failure, {| generalOutput := text'; effects := []; writes := 0 |}))
  ∨ (∃ text',
       CopyingRun.attempt w loaded store fileResults
         {| generalOutput := text; effects := []; writes := 0 |}
       = (res ← gradeOrInternalError w
                  (λ report, (Copying.gradeStrykerResults (schema loaded) report store).1);
          CopyingRun.outputGrading w res)
           {| generalOutput := text'; effects := []; writes := 0 |}).
Proof.
  unfold CopyingRun.attempt, CopyingRun.executeCommandAndGetOutput.
  unfold mbind, Script_bind, say, fail, mret, Script_ret. simpl.
  attempt_steps; first [by left; eauto|right; by eexists].
Qed.

Lemma gradeOrInternalError_run w grade text :
  gradeOrInternalError w grade {| generalOutput := text; effects := []; writes := 0 |}
  = match runStryker w with
    | inr report =>
        match grade report with
        | Ok res =>
            (inr {| grader_output := Some (text +:+ "Tests successfully ran");
                    stdout_visibility := stdout_visibility res;
                    tests := tests res;
                    grader_score := grader_score res |},
             {| generalOutput := text +:+ "Tests successfully ran";
                effects := []; writes := 0 |})
        | Throw _ =>
            (inr (notGraded (text +:+ internalError)),
             {| generalOutput := text +:+ internalError; effects := []; writes := 0 |})
        end
    | inl _ =>
        (inr (notGraded (text +:+ internalError)),
         {| generalOutput := text +:+ internalError; effects := []; writes := 0 |})
    end.
Proof.
  unfold gradeOrInternalError. destruct (runStryker w) as [ex|report]; [done|].
  by destruct (grade report).
Qed.

(** X16. In the later revision a graded result whose file cannot be
    written does not stand: the exception of [fs.writeFile] reaches the
    [catch] of the checks, so that after the graded result a second one is
    set as output, with score 0, no tests and the text of the first one
    followed by the exception. The second result is written in turn, and
    a second rejection marks the action as failed. *)
Theorem CopyingRun_write_rejected w res rest outputFile ex :
  CopyingRun.run w = SetOutput res :: rest →
  graded res →
  argv w !! 3%nat = Some outputFile →
  writeFile w 0%nat outputFile = Some ex →
  ∃ text,
    let regraded := notGraded (text +:+ toString (Library ex) +:+ errorOccurred) in
    grader_output res = Some text
    ∧ (∃ log, text = log +:+ "Tests successfully ran")
    ∧ rest = [SetOutput regraded;
              match writeFile w 1%nat outputFile with
              | Some again => SetFailed (Escaped (Library again))
              | None => WriteFile outputFile regraded
              end].
Proof.
  intros Hrun Hgraded Hargv Hwrite. revert Hrun. unfold CopyingRun.run.
  destruct (CopyingRun.submissionDirectory w) as [failure|directory]; [done|].
  destruct (grading_yml w) as [failure|loaded]; [done|].
  destruct (validateConfig _ _) as [[[]|e] store]; [|done]. simpl.
  destruct (CopyingRun_attempt_cases w loaded store
              (copied w directory <$> submissionFiles (schema loaded))
              (CopyingRun.examined w directory))
    as [(failure & text & ->)|(text & ->)].
  { unfold CopyingRun.rescue. rewrite outputGrading_run, Hargv. simpl. rewrite Hwrite.
    simpl. intros [= <- _]. by destruct Hgraded as [? [=]]. }
  unfold mbind, Script_bind. rewrite gradeOrInternalError_run.
  assert (∀ t, ¬ graded (notGraded t)) as Hnot by (by intros t [? [=]]).
  destruct (runStryker w) as [failure|report];
    [|destruct (Copying.gradeStrykerResults _ _ _).1 as [graded|e]];
    rewrite outputGrading_run, Hargv; simpl; rewrite Hwrite;
    unfold CopyingRun.rescue; rewrite outputGrading_run, Hargv; simpl;
    destruct (writeFile w 1%nat outputFile) as [again|]; simpl;
    intros [= <- <-]; try (by destruct (Hnot _ Hgraded));
    (eexists; simpl; split_and!; [done|by eexists|done]).
Qed.

Lemma CopyingRun_write_rejected_witness :
  let w := Surroundings.world (Surroundings.scenario 1) true Surroundings.allQuiet
             Surroundings.toFile Surroundings.diskFull in
  ∃ res text,
    head (CopyingRun.run w) = Some (SetOutput res)
    ∧ tests res
      = Some [{| score := 5; max_score := Num 10; test_name := "U";
                 output := "Faults detected: 4/6" |}]
    ∧ grader_output res = Some text
    ∧ tail (CopyingRun.run w)
      = [SetOutput (notGraded (text +:+ toString (Library Surroundings.noSpace)
                               +:+ errorOccurred));
         WriteFile "results.json"
           (notGraded (text +:+ toString (Library Surroundings.noSpace)
                       +:+ errorOccurred))].
Proof.
  intros w.
  eassert (CopyingRun.run w = SetOutput _ :: _) as Hrun by (vm_compute; reflexivity).
  destruct (CopyingRun_write_rejected w _ _ "results.json" Surroundings.noSpace Hrun)
    as (text & Hres & _ & Hrest); [by eexists|reflexivity|reflexivity|].
  do 2 eexists. rewrite Hrun. simpl. split_and!; [done|done|exact Hres|exact Hrest].
Defined.

Lemma ungradable_throws results (st : heap) u :
  ungradable st u →
  (∃ e, (InPlace.gradeMutationUnit u results st).1 = Throw e)
  ∧ (∃ e, (Copying.gradeMutationUnit u results st).1 = Throw e).
Proof.
  intros Hu.
  destruct (result_map extractLocationInformation (locations u)) as [locs|e] eqn:Hlocs.
  - destruct Hu as [Hempty|[e He]]; [|congruence].
    rewrite (InPlace_gradeMutationUnit_run _ _ _ _ Hlocs),
      (Copying_gradeMutationUnit_run _ _ _ _ Hlocs), Hempty.
    split; by eexists.
  - unfold InPlace.gradeMutationUnit, Copying.gradeMutationUnit.
    rewrite !(gradeMutationUnit_with_throw _ _ _ _ _ Hlocs). split; by eexists.
Qed.

Lemma ungradable_after results (st : heap) x u :
  ungradable st u →
  ungradable (InPlace.gradeMutationUnit x results st).2 u.
Proof.
  intros [Hempty|Hlocs]; [|by right]. left.
  destruct (result_map extractLocationInformation (locations x)) as [locs|e] eqn:Hx.
  - rewrite (InPlace_gradeMutationUnit_heap _ _ _ _ Hx).
    destruct (decide (breakPoints x = breakPoints u)) as [Heq|Hne].
    + by rewrite Heq, lookup_total_insert_eq, Hempty.
    + by rewrite lookup_total_insert_ne.
  - unfold InPlace.gradeMutationUnit.
    by rewrite (gradeMutationUnit_with_throw _ _ _ _ _ Hx).
Qed.

Lemma InPlace_M_map_ungradable results units (st : heap) u :
  u ∈ units → ungradable st u →
  ∃ e, (M_map (λ v, InPlace.gradeMutationUnit v results) units st).1 = Throw e.
Proof.
  intros Hin. revert st.
  induction Hin as [u units|u x units Hin IH]; intros st Hu; simpl;
    unfold mbind, M_bind.
  - destruct (ungradable_throws results st u Hu) as [[e He] _].
    destruct (InPlace.gradeMutationUnit u results st) as [[t|e'] st'];
      simpl in *; [done|by eexists].
  - pose proof (ungradable_after results st x u Hu) as Hafter.
    destruct (InPlace.gradeMutationUnit x results st) as [[t|e'] st'];
      simpl in *; [|by eexists].
    destruct (IH st' Hafter) as [e He].
    destruct (M_map _ units st') as [[ts|e''] st'']; simpl in *; [done|by eexists].
Qed.

Lemma gradeStrykerResults_ungradable schema results (st : heap) u :
  u ∈ gradedUnits schema → ungradable st u →
  (∃ e, (InPlace.gradeStrykerResults schema results st).1 = Throw e)
  ∧ (∃ e, (Copying.gradeStrykerResults schema results st).1 = Throw e).
Proof.
  intros Hin Hu. split.
  - unfold InPlace.gradeStrykerResults, gradeStrykerResults_with, mbind, M_bind.
    fold InPlace.gradeMutationUnit.
    destruct (InPlace_M_map_ungradable results _ st u Hin Hu) as [e He].
    destruct (M_map _ _ st) as [[ts|e'] st']; simpl in *; [done|by eexists].
  - rewrite Copying_gradeStrykerResults_run. simpl.
    apply list_elem_of_split in Hin as (before & after & ->).
    destruct (ungradable_throws results st u Hu) as [_ [e He]].
    assert (∃ e', result_map (λ v, (Copying.gradeMutationUnit v results st).1)
                    (before ++ u :: after) = Throw e') as [e' ->]; [|by eexists].
    clear Hu. induction before as [|x before IH]; simpl.
    + rewrite He. by eexists.
    + destruct (Copying.gradeMutationUnit x results st).1; simpl; [|by eexists].
      destruct IH as [e' ->]. by eexists.
Qed.

(** X17. A unit without breakpoints, or with a location that
    [extractLocationInformation] refuses, is not seen by [validateConfig]
    but keeps every submission from being graded: no run of either
    revision hands out test results. *)
Theorem run_ungradable_unit w loaded u :
  grading_yml w = inr loaded →
  u ∈ gradedUnits (schema loaded) →
  ungradable (tables loaded) u →
  Forall (λ effect, ¬ handsOutGrades effect) (InPlaceRun.run w)
  ∧ Forall (λ effect, ¬ handsOutGrades effect) (CopyingRun.run w).
Proof.
  intros Hyml Hin Hu.
  assert (∀ t, ¬ graded (notGraded t)) as Hnot by (by intros t [? [=]]).
  split.
  - unfold InPlaceRun.run. rewrite Hyml.
    pose proof (validateConfig_heap (schema loaded) (tables loaded)) as Hstore.
    destruct (validateConfig _ _) as [[[]|e] store];
      [|rewrite Forall_singleton; simpl; tauto].
    simpl in Hstore. subst store.
    unfold InPlaceRun.attempt, InPlaceRun.executeCommandOrFailWithOutput.
    unfold mbind, Script_bind, say, fail, mret, Script_ret, emit. simpl.
    attempt_steps;
      try (unfold InPlaceRun.rescue; simpl; rewrite Forall_singleton; apply Hnot).
    rewrite gradeOrInternalError_run.
    destruct (runStryker w) as [ex|report];
      [simpl; rewrite Forall_singleton; apply Hnot|].
    destruct (gradeStrykerResults_ungradable (schema loaded) report _ u Hin Hu)
      as [[e ->] _].
    simpl. rewrite Forall_singleton. apply Hnot.
  - unfold CopyingRun.run. rewrite Hyml.
    destruct (CopyingRun.submissionDirectory w) as [failure|directory];
      [rewrite Forall_singleton; simpl; tauto|].
    pose proof (validateConfig_heap (schema loaded) (tables loaded)) as Hstore.
    destruct (validateConfig _ _) as [[[]|e] store];
      [|rewrite Forall_singleton; simpl; tauto].
    simpl in Hstore. subst store. simpl.
    destruct (CopyingRun_attempt_cases w loaded (tables loaded)
                (copied w directory <$> submissionFiles (schema loaded))
                (CopyingRun.examined w directory))
      as [(failure & text & ->)|(text & ->)].
    { apply rescue_not_graded. constructor. }
    unfold mbind, Script_bind. rewrite gradeOrInternalError_run.
    assert (∀ t s,
              s = {| generalOutput := t; effects := []; writes := 0 |} →
              Forall (λ effect, ¬ handsOutGrades effect)
                match CopyingRun.outputGrading w (notGraded t) s with
                | (inr _, s') => effects s'
                | (inl failure, s') => CopyingRun.rescue w failure s'
                end) as Hout.
    { intros t s ->. rewrite outputGrading_run. simpl.
      destruct (argv w !! 3%nat) as [f|]; [destruct (writeFile w 0%nat f)|]; simpl.
      - apply rescue_not_graded. simpl. rewrite Forall_singleton. apply Hnot.
      - rewrite Forall_cons, Forall_singleton. split; apply Hnot.
      - rewrite Forall_singleton. apply Hnot. }
    destruct (runStryker w) as [ex|report]; [by apply Hout|].
    destruct (gradeStrykerResults_ungradable (schema loaded) report _ u Hin Hu)
      as [_ [e ->]].
    by apply Hout.
Qed.

Lemma run_ungradable_unit_witness :
  let w := Surroundings.world
             (Surroundings.loaded [Scenario.U] emptyTable 0 1) true
             Surroundings.allQuiet Surroundings.plain Surroundings.writable in
  (validateConfig (Surroundings.config [Scenario.U]) emptyTable).1 = Ok tt
  ∧ Forall (λ effect, ¬ handsOutGrades effect) (InPlaceRun.run w)
  ∧ Forall (λ effect, ¬ handsOutGrades effect) (CopyingRun.run w).
Proof.
  split; [reflexivity|].
  apply (run_ungradable_unit
           (Surroundings.world
              (Surroundings.loaded [Scenario.U] emptyTable 0 1) true
              Surroundings.allQuiet Surroundings.plain Surroundings.writable)
           (Surroundings.loaded [Scenario.U] emptyTable 0 1) Scenario.U);
    [reflexivity|apply list_elem_of_here|by left].
Defined.

Lemma gradeOrInternalError_handedOut w scan schema store text :
  ∃ res text',
    gradeOrInternalError w
      (λ report, (gradeStrykerResults_with scan schema report store).1)
      {| generalOutput := text; effects := []; writes := 0 |}
    = (inr res, {| generalOutput := text'; effects := []; writes := 0 |})
    ∧ handedOut (gradedUnits schema) res.
Proof.
  rewrite gradeOrInternalError_run.
  destruct (runStryker w) as [ex|report].
  { do 2 eexists. split; [done|]. left. eauto. }
  destruct (gradeStrykerResults_with scan schema report store).1 as [res|e] eqn:Hres.
  - destruct (gradeStrykerResults_with_tests _ _ _ _ _ Hres) as (ts & -> & Hlen).
    do 2 eexists. split; [done|]. right. eauto.
  - do 2 eexists. split; [done|]. left. eauto.
Qed.

(** X18. What a run leaves behind. When [grading.yml] cannot be read or
    [validateConfig] throws, the action is marked as failed and no result
    is set; the later revision fails the same way without a directory to
    grade. Otherwise [src/main.ts] sets exactly one result, and the later
    revision sets a result first and nothing else when no file is asked
    for; that result is either a visible score of 0 without tests, or the
    hidden results of the tests, one for each unit, without a score. *)
Theorem run_hands_out w :
  match grading_yml w with
  | inl ex =>
      InPlaceRun.run w = [SetFailed (Escaped (Library ex))]
      ∧ (CopyingRun.run w = [SetFailed (Escaped (Library ex))]
         ∨ CopyingRun.run w = [SetFailed NoSubmissionDirectory])
  | inr loaded =>
      match (validateConfig (schema loaded) (tables loaded)).1 with
      | Throw e =>
          InPlaceRun.run w = [SetFailed (Grading e)]
          ∧ (CopyingRun.run w = [SetFailed (Grading e)]
             ∨ CopyingRun.run w = [SetFailed NoSubmissionDirectory])
      | Ok _ =>
          (∃ res, InPlaceRun.run w = [SetOutput res]
                  ∧ handedOut (gradedUnits (schema loaded)) res)
          ∧ (CopyingRun.run w = [SetFailed NoSubmissionDirectory]
             ∨ ∃ res rest,
                 CopyingRun.run w = SetOutput res :: rest
                 ∧ handedOut (gradedUnits (schema loaded)) res
                 ∧ (argv w !! 3%nat = None → rest = []))
      end
  end.
Proof.
  assert (CopyingRun.submissionDirectory w = inl NoSubmissionDirectory
          ∨ ∃ directory, CopyingRun.submissionDirectory w = inr directory) as Hdir.
  { unfold CopyingRun.submissionDirectory.
    destruct (String.eqb _ _); [destruct (_ <? _)%nat|]; eauto. }
  unfold InPlaceRun.run, CopyingRun.run.
  destruct (grading_yml w) as [ex|loaded].
  { split; [done|]. destruct Hdir as [->|[directory ->]]; eauto. }
  destruct (validateConfig _ _) as [[[]|e] store]; simpl.
  2:{ split; [done|]. destruct Hdir as [->|[directory ->]]; eauto. }
  split.
  - unfold InPlaceRun.attempt, InPlaceRun.executeCommandOrFailWithOutput,
      InPlaceRun.rescue.
    unfold mbind, Script_bind, say, fail, mret, Script_ret, emit. simpl.
    attempt_steps; try (eexists; split; [done|]; left; by eexists).
    match goal with |- context [gradeOrInternalError w ?g {| generalOutput := ?t |}] =>
      destruct (gradeOrInternalError_handedOut w reverse_in_place (schema loaded) store t)
        as (res & text & Hrun & Hres) end.
    unfold InPlace.gradeStrykerResults. rewrite Hrun. simpl. eauto.
  - destruct Hdir as [->|[directory ->]]; [by left|]. right.
    destruct (CopyingRun_attempt_cases w loaded store
                (copied w directory <$> submissionFiles (schema loaded))
                (CopyingRun.examined w directory))
      as [(failure & text & ->)|(text & ->)].
    + unfold CopyingRun.rescue. rewrite outputGrading_run. simpl.
      destruct (argv w !! 3%nat) as [f|]; [destruct (writeFile w 0%nat f)|];
        simpl; do 2 eexists; (split_and!; [done|left; by eexists|done]).
    + unfold mbind, Script_bind.
      destruct (gradeOrInternalError_handedOut w reversed_copy (schema loaded) store text)
        as (res & text' & Hrun & Hres).
      unfold Copying.gradeStrykerResults. rewrite Hrun, outputGrading_run. simpl.
      destruct (argv w !! 3%nat) as [f|]; [destruct (writeFile w 0%nat f)|]; simpl.
      * unfold CopyingRun.rescue. rewrite outputGrading_run. simpl.
        destruct (argv w !! 3%nat) as [f'|]; [destruct (writeFile w 1%nat f')|];
          simpl; do 2 eexists; (split_and!; [done|done|done]).
      * do 2 eexists. by split_and!.
      * do 2 eexists. by split_and!.
Qed.

(** X19. The count of [eslint-disable] is never below 1, since the
    output of the search is split into lines after being trimmed and the
    empty text is one line. With a tolerance of 0 or less the later
    revision grades no submission; when a file was copied and the search
    came to an end, the result reports a count of at least 1. *)
Theorem CopyingRun_eslint_disable_minimum w loaded :
  grading_yml w = inr loaded →
  expectedESlintIgnore loaded ≤ 0 →
  Forall (λ effect, ¬ handsOutGrades effect) (CopyingRun.run w)
  ∧ ∀ directory submissionFile,
      CopyingRun.submissionDirectory w = inr directory →
      (validateConfig (schema loaded) (tables loaded)).1 = Ok tt →
      submissionFile ∈ submissionFiles (schema loaded) →
      copied w directory submissionFile = true →
      rejected (exec w "grep -ro eslint-disable src" true) = false →
      ∃ found rest,
        1 ≤ found
        ∧ CopyingRun.run w
          = SetOutput (notGraded (CopyingRun.examined w directory
                                  +:+ toString (TooManyESLintDisables
                                                  (expectedESlintIgnore loaded) found)
                                  +:+ errorOccurred)) :: rest.
Proof.
  intros Hyml Hzero.
  pose proof (lines_length (Text.trim (printed w "grep -ro eslint-disable src" true)))
    as Hlines.
  split.
  - unfold CopyingRun.run. rewrite Hyml.
    destruct (CopyingRun.submissionDirectory w) as [failure|directory].
    { rewrite Forall_singleton. simpl. tauto. }
    destruct (validateConfig _ _) as [[[]|e] store];
      [|rewrite Forall_singleton; simpl; tauto].
    simpl. unfold CopyingRun.attempt, CopyingRun.executeCommandAndGetOutput.
    unfold mbind, Script_bind, say, fail, mret, Script_ret. simpl.
    destruct (List.find _ _); simpl; [|by apply rescue_not_graded].
    destruct (rejected _); simpl; [by apply rescue_not_graded|].
    match goal with |- context [?a <? ?b] => assert ((a <? b) = true) as -> end.
    { apply Z.ltb_lt. lia. }
    simpl. by apply rescue_not_graded.
  - intros directory submissionFile Hdir Hvalid Hin Hcopied Hgrep.
    unfold CopyingRun.run. rewrite Hyml, Hdir.
    destruct (validateConfig _ _) as [[[]|e] store]; [|done].
    simpl. unfold CopyingRun.attempt, CopyingRun.executeCommandAndGetOutput.
    unfold mbind, Script_bind, say, fail, mret, Script_ret. simpl.
    destruct (List.find _ _) as [found|] eqn:Hfound.
    2:{ apply find_copied in Hfound. rewrite Forall_forall in Hfound.
        specialize (Hfound _ Hin). congruence. }
    simpl. rewrite Hgrep. simpl.
    match goal with |- context [?a <? ?b] => assert ((a <? b) = true) as -> end.
    { apply Z.ltb_lt. lia. }
    simpl. unfold CopyingRun.rescue. rewrite outputGrading_run. simpl.
    destruct (argv w !! 3%nat) as [f|]; [destruct (writeFile w 0%nat f)|]; simpl;
      do 2 eexists; (split; [|done]); lia.
Qed.

Lemma CopyingRun_eslint_disable_minimum_witness :
  let w := Surroundings.world (Surroundings.scenario 0) true Surroundings.allQuiet
             Surroundings.plain Surroundings.writable in
  Forall (λ effect, ¬ handsOutGrades effect) (CopyingRun.run w)
  ∧ ∀ directory submissionFile,
      CopyingRun.submissionDirectory w = inr directory →
      (validateConfig (schema (Surroundings.scenario 0))
                      (tables (Surroundings.scenario 0))).1 = Ok tt →
      submissionFile ∈ submissionFiles (schema (Surroundings.scenario 0)) →
      copied w directory submissionFile = true →
      rejected (exec w "grep -ro eslint-disable src" true) = false →
      ∃ found rest,
        1 ≤ found
        ∧ CopyingRun.run w
          = SetOutput (notGraded (CopyingRun.examined w directory
                                  +:+ toString (TooManyESLintDisables
                                                  (expectedESlintIgnore
                                                     (Surroundings.scenario 0)) found)
                                  +:+ errorOccurred)) :: rest.
Proof.
  apply (CopyingRun_eslint_disable_minimum
           (Surroundings.world (Surroundings.scenario 0) true Surroundings.allQuiet
              Surroundings.plain Surroundings.writable)
           (Surroundings.scenario 0)); [reflexivity|simpl; lia].
Defined.

Lemma lines_empty : Text.lines EmptyString = [EmptyString].
Proof. done. Qed.

(** X20. The run of the later revision that grades: with a directory, a
    valid configuration whose units have breakpoints and locations that
    parse, one copied file, commands that all come to an end, no more
    [eslint-disable] than tolerated, a search for [ts-ignore] that printed
    nothing or no more than tolerated, and a report of the mutation run,
    the first effect sets a hidden result whose text ends in
    [Tests successfully ran] and whose tests are, unit by unit, what
    [gradeMutationUnit] returns on the loaded tables. A search for
    [ts-ignore] without output passes whatever the tolerance. *)
Theorem CopyingRun_run_grades w directory loaded submissionFile report :
  CopyingRun.submissionDirectory w = inr directory →
  grading_yml w = inr loaded →
  (validateConfig (schema loaded) (tables loaded)).1 = Ok tt →
  submissionFile ∈ submissionFiles (schema loaded) →
  copied w directory submissionFile = true →
  (∀ command ignoreFailures, rejected (exec w command ignoreFailures) = false) →
  Z.of_nat (length (Text.lines (Text.trim (printed w "grep -ro eslint-disable src" true))))
    ≤ expectedESlintIgnore loaded →
  (Text.trim (printed w "grep -ro ts-ignore src" true) = EmptyString
   ∨ Z.of_nat (length (Text.lines (Text.trim (printed w "grep -ro ts-ignore src" true))))
     ≤ expectedTSIgnore loaded) →
  runStryker w = inr report →
  Forall (λ u, tables loaded !!! breakPoints u ≠ []
               ∧ ∃ locs, result_map extractLocationInformation (locations u) = Ok locs)
         (gradedUnits (schema loaded)) →
  ∃ log testResults rest,
    CopyingRun.run w
    = SetOutput {| grader_output := Some (log +:+ "Tests successfully ran");
                   stdout_visibility := hidden;
                   tests := Some testResults;
                   grader_score := None |} :: rest
    ∧ Forall2 (λ u t, (Copying.gradeMutationUnit u report (tables loaded)).1 = Ok t)
              (gradedUnits (schema loaded)) testResults.
Proof.
  intros Hdir Hyml Hvalid Hin Hcopied Hexec Heslint Hts Hstryker Hunits.
  assert (∃ testResults,
            result_map (λ u, (Copying.gradeMutationUnit u report (tables loaded)).1)
                       (gradedUnits (schema loaded)) = Ok testResults)
    as [testResults Hresults].
  { induction Hunits as [|u units [Hne [locs Hlocs]] _ [ts IH]]; simpl; [by eexists|].
    destruct (gradeMutationUnit_returns u report (tables loaded) locs Hlocs Hne)
      as (_ & _ & _ & t & _ & _ & _ & _ & _ & ->).
    simpl. rewrite IH. by eexists. }
  unfold CopyingRun.run. rewrite Hdir, Hyml.
  pose proof (validateConfig_heap (schema loaded) (tables loaded)) as Hstore.
  destruct (validateConfig _ _) as [[[]|e] store]; [|done].
  simpl in Hstore. subst store. simpl.
  unfold CopyingRun.attempt, CopyingRun.executeCommandAndGetOutput.
  unfold mbind, Script_bind, say, fail, mret, Script_ret. simpl.
  destruct (List.find _ _) as [found|] eqn:Hfound.
  2:{ apply find_copied in Hfound. rewrite Forall_forall in Hfound.
      specialize (Hfound _ Hin). congruence. }
  simpl. rewrite ?Hexec. simpl.
  match goal with |- context [?a <? ?b] => assert ((a <? b) = false) as -> end.
  { apply Z.ltb_ge. lia. }
  simpl. rewrite ?Hexec. simpl.
  match goal with |- context [if ?c then _ else _] => assert (c = false) as -> end.
  { destruct Hts as [->|Hts].
    - rewrite lines_empty. simpl. by rewrite andb_false_r.
    - apply andb_false_iff. left. apply Z.ltb_ge. lia. }
  simpl. rewrite ?Hexec. simpl.
  rewrite gradeOrInternalError_run, Hstryker, Copying_gradeStrykerResults_run.
  simpl. rewrite Hresults. simpl. rewrite outputGrading_run. simpl.
  apply result_map_Forall2 in Hresults.
  destruct (argv w !! 3%nat) as [f|]; [destruct (writeFile w 0%nat f)|]; simpl.
  - unfold CopyingRun.rescue. rewrite outputGrading_run. simpl.
    destruct (argv w !! 3%nat) as [f'|]; [destruct (writeFile w 1%nat f')|];
      simpl; by do 3 eexists.
  - by do 3 eexists.
  - by do 3 eexists.
Qed.

Lemma CopyingRun_run_grades_witness :
  let w := Surroundings.world (Surroundings.scenario 1) true Surroundings.allQuiet
             Surroundings.plain Surroundings.writable in
  expectedTSIgnore (Surroundings.scenario 1) = -1
  ∧ ∃ log testResults rest,
      CopyingRun.run w
      = SetOutput {| grader_output := Some (log +:+ "Tests successfully ran");
                     stdout_visibility := hidden;
                     tests := Some testResults;
                     grader_score := None |} :: rest
      ∧ Forall2 (λ u t, (Copying.gradeMutationUnit u Scenario.report
                           (tables (Surroundings.scenario 1))).1 = Ok t)
                (gradedUnits (schema (Surroundings.scenario 1))) testResults.
Proof.
  split; [reflexivity|].
  apply (CopyingRun_run_grades
           (Surroundings.world (Surroundings.scenario 1) true Surroundings.allQuiet
              Surroundings.plain Surroundings.writable)
           "submission" (Surroundings.scenario 1)
           ("a.test.ts", "src/a.test.ts") Scenario.report).
  - reflexivity.
  - reflexivity.
  - reflexivity.
  - apply list_elem_of_here.
  - reflexivity.
  - reflexivity.
  - vm_compute. discriminate.
  - by left.
  - reflexivity.
  - repeat constructor; (by vm_compute) || (by exists scenarioLocations).
Defined.

End RunFacts.
